(** * dfa-js: the DFA and NFA classes of [src/dfa.js]

    A shallow embedding of the spec validators, the two transition-table
    builders and the two simulation engines, followed by the properties of
    the engines and of table construction.

    Modelling conventions.
    - A JavaScript string is its sequence of UTF-8 bytes ([string]).
    - A [Set] of strings is a [gset string]; only [has] and [add] are used,
      so insertion order is not observable.
    - An object literal used as a dictionary ([result = {}], and each row
      [result[x[0]] = {}]) is a finite map of its own properties
      ([gmap string _]) whose prototype is [Object.prototype].  Reading
      [obj[k]] finds an own property first and otherwise what
      [Object.prototype] holds under [k]; see [get].
    - The built-in objects are as the language defines them when a call
      starts.  A call that would write a property of a built-in object, or
      read a property of a built-in function, or turn a built-in function
      into a property name, has the outcome [Beyond]: the embedding says
      nothing about it, nor about what follows it.  The calls it does
      describe leave the built-in objects as they were.
    - A method that throws is a value [Throw e]; the methods of an instance
      take the receiver and return the outcome together with the receiver as
      the call leaves it. *)

From stdpp Require Import gmap strings list pretty.

Local Open Scope string_scope.
Local Open Scope list_scope.

(** ** JavaScript values that a raw spec can hold *)

Inductive jsval :=
  | JUndefined
  | JNull
  | JBool (b : bool)
  | JNumber (n : Z)          (* only [typeof] and truthiness are observed *)
  | JString (s : string)
  | JObject.                 (* any other object *)

(** [!v] is [negb (truthy v)]. *)
Definition truthy (v : jsval) : bool :=
  match v with
  | JUndefined | JNull => false
  | JBool b => b
  | JNumber n => negb (n =? 0)%Z
  | JString s => negb (String.eqb s "")
  | JObject => true
  end.

(** The string a value is coerced to when it is used as a property name. *)
Definition property_key (v : jsval) : string :=
  match v with
  | JUndefined => "undefined"
  | JNull => "null"
  | JBool b => if b then "true" else "false"
  | JNumber n => pretty n
  | JString s => s
  | JObject => "[object Object]"
  end.

(** The names under which [Object.prototype] holds a property: its functions
    and the accessor [__proto__]. *)
Definition inherited_names : list string :=
  ["constructor"; "hasOwnProperty"; "isPrototypeOf"; "propertyIsEnumerable";
   "toLocaleString"; "toString"; "valueOf"; "__proto__";
   "__defineGetter__"; "__defineSetter__";
   "__lookupGetter__"; "__lookupSetter__"].

Definition inherited (k : string) : bool := bool_decide (k ∈ inherited_names).

(** What a runtime slot of an automaton holds: the name of a state, an
    instance of [class ErrorState {}], or the value that an object literal
    yields under an inherited name [k]: a built-in function, or
    [Object.prototype] itself for [__proto__]. *)
Inductive state_val :=
  | Name (s : string)
  | ErrorState
  | Inherited (k : string).

Definition instanceof_ErrorState (x : state_val) : bool :=
  match x with ErrorState => true | _ => false end.

(** The property name a value is turned into by [table[x]].  The text of a
    built-in function is left to the implementation: no name is given. *)
Definition state_key (x : state_val) : option string :=
  match x with
  | Name s => Some s
  | ErrorState => Some "[object Object]"
  | Inherited k =>
      if String.eqb k "__proto__" then Some "[object Object]" else None
  end.

(** [set.has(v)]: the sets of this program hold strings only. *)
Definition has (set : gset string) (v : jsval) : bool :=
  match v with JString s => bool_decide (s ∈ set) | _ => false end.

Definition has_state (set : gset string) (x : state_val) : bool :=
  match x with Name s => bool_decide (s ∈ set) | _ => false end.

(** [obj[k]] for an object literal [obj]. *)
Inductive got (V : Type) :=
  | Undefined
  | Own (v : V)
  | FromPrototype.
Arguments Undefined {V}.
Arguments Own {V} v.
Arguments FromPrototype {V}.

Definition get {V : Type} (obj : gmap string V) (k : string) : got V :=
  match obj !! k with
  | Some v => Own v
  | None => if inherited k then FromPrototype else Undefined
  end.

(** [obj[k] = v] for an object literal [obj] and a string [v]: the setter of
    [__proto__] ignores a string, any other name becomes an own property. *)
Definition put_string (obj : gmap string string) (k v : string)
  : gmap string string :=
  if String.eqb k "__proto__" then obj else <[k := v]> obj.

(** ** [x.trim().length === 0] *)

(** White space and line terminators of ECMAScript, by their UTF-8 bytes. *)
Definition ws1 (a : N) : bool :=
  ((9 <=? a) && (a <=? 13) || (a =? 32))%N.

Definition ws2 (a b : N) : bool :=
  ((a =? 194) && (b =? 160))%N.                       (* U+00A0 *)

Definition ws3 (a b c : N) : bool :=
  ((a =? 225) && (b =? 154) && (c =? 128)             (* U+1680 *)
   || (a =? 226) && (b =? 128)
      && ((128 <=? c) && (c <=? 138)                  (* U+2000 .. U+200A *)
          || (c =? 168) || (c =? 169) || (c =? 175))  (* U+2028 U+2029 U+202F *)
   || (a =? 226) && (b =? 129) && (c =? 159)          (* U+205F *)
   || (a =? 227) && (b =? 128) && (c =? 128)          (* U+3000 *)
   || (a =? 239) && (b =? 187) && (c =? 191))%N.      (* U+FEFF *)

Fixpoint trims_to_empty (s : string) : bool :=
  match s with
  | EmptyString => true
  | String c1 r1 =>
      if ws1 (Ascii.N_of_ascii c1) then trims_to_empty r1 else
      match r1 with
      | EmptyString => false
      | String c2 r2 =>
          if ws2 (Ascii.N_of_ascii c1) (Ascii.N_of_ascii c2) then trims_to_empty r2 else
          match r2 with
          | EmptyString => false
          | String c3 r3 =>
              if ws3 (Ascii.N_of_ascii c1) (Ascii.N_of_ascii c2) (Ascii.N_of_ascii c3)
              then trims_to_empty r3 else false
          end
      end
  end.

(** ** Thrown errors, one constructor per [throw] of the source *)

Inductive error :=
  | ENotDefined                                 (* dfa object not defined in constructor. *)
  | EAlphabetNotDefined
  | EStatesNotDefined
  | EInitialStateNotDefined
  | EFinalStatesNotDefined
  | ETransitionsNotDefined
  | EAlphabetNotString (x : jsval)
  | EAlphabetDuplicate (x : string)
  | EAlphabetWhitespace
  | EStatesNotString (x : jsval)
  | EStatesDuplicate (x : string)
  | EStatesWhitespace
  | EInitialStateNotString (x : jsval)
  | EInitialStateInvalid
  | EInitialStateWhitespace
  | EFinalStatesNotString (x : jsval)
  | EFinalStatesDuplicate (x : string)
  | EFinalStatesUndefinedState (x : string)
  | ETransitionNotTriple (x : list jsval)
  | ETransitionNotString (i : nat) (y : jsval)
  | ETransitionFirst (x0 : string)
  | ETransitionSecond (x1 : string)
  | ETransitionThird (x2 : string)
  | ENonDeterministic (x0 x1 x2 : string)
  | ENotInAlphabet (input : jsval)              (* symbol ... is not a valid symbol of the alphabet *)
  | ETypeError.                                 (* raised by the runtime: [x.f is not a function] and the like *)

Inductive completion (A : Type) :=
  | Ok (a : A)
  | Throw (e : error)
  | Beyond.                  (* the call leaves what is modelled *)
Arguments Ok {A} a.
Arguments Throw {A} e.
Arguments Beyond {A}.

#[global] Instance completion_ret : MRet completion := @Ok.
#[global] Instance completion_bind : MBind completion := λ A B f m,
  match m with Ok a => f a | Throw e => Throw e | Beyond => Beyond end.
#[global] Instance completion_throw : MThrow error completion := @Throw.

(** [l.forEach(f)] where [f] updates a local accumulator and may throw. *)
Fixpoint forEach {A S : Type} (f : A → S → completion S) (l : list A) (acc : S)
  : completion S :=
  match l with
  | [] => Ok acc
  | x :: l' => acc' ← f x acc; forEach f l' acc'
  end.

(** [x.forEach((y, i) => ...)] for a callback that only throws. *)
Fixpoint forEach_i {A : Type} (f : A → nat → completion unit) (l : list A) (i : nat)
  : completion unit :=
  match l with
  | [] => Ok tt
  | y :: l' => _ ← f y i; forEach_i f l' (S i)
  end.

(** ** The raw specification *)

Module Spec.
(** A top-level property is [None] when it is missing (or otherwise falsy)
    and [Some] array when present; [initialState] is any value. *)
Record t := Build {
  alphabet : option (list jsval);
  states : option (list jsval);
  initialState : jsval;
  finalStates : option (list jsval);
  transitions : option (list (list jsval))
}.
End Spec.

(** Truthiness of a top-level property. *)
Definition present {A : Type} (o : option A) : bool :=
  match o with Some _ => true | None => false end.

(** Calling a method on a property that is not there. *)
Definition deref {A : Type} (o : option A) : completion A :=
  match o with Some a => Ok a | None => Throw ETypeError end.

Definition validateDFAProperties (dfa : option Spec.t) : completion unit :=
  match dfa with
  | None => Throw ENotDefined
  | Some dfa =>
      if negb (present (Spec.alphabet dfa)) then Throw EAlphabetNotDefined
      else if negb (present (Spec.states dfa)) then Throw EStatesNotDefined
      else if negb (truthy (Spec.initialState dfa)) then Throw EInitialStateNotDefined
      else if negb (present (Spec.finalStates dfa)) then Throw EFinalStatesNotDefined
      else if negb (present (Spec.transitions dfa)) then Throw ETransitionsNotDefined
      else Ok tt
  end.

Definition validateAlphabet (dfa : Spec.t) : completion (gset string) :=
  alphabet ← deref (Spec.alphabet dfa);
  forEach (λ x (result : gset string),
    match x with
    | JString s =>
        if bool_decide (s ∈ result) then Throw (EAlphabetDuplicate s)
        else if trims_to_empty s then Throw EAlphabetWhitespace
        else Ok (result ∪ {[s]})
    | _ => Throw (EAlphabetNotString x)
    end) alphabet ∅.

Definition validateStates (dfa : Spec.t) : completion (gset string) :=
  states ← deref (Spec.states dfa);
  forEach (λ x (result : gset string),
    match x with
    | JString s =>
        if bool_decide (s ∈ result) then Throw (EStatesDuplicate s)
        else if trims_to_empty s then Throw EStatesWhitespace
        else Ok (result ∪ {[s]})
    | _ => Throw (EStatesNotString x)
    end) states ∅.

(** Returns the validated name, which the constructors store next. *)
Definition validateInitialState (dfa : Spec.t) (states : gset string)
  : completion string :=
  match Spec.initialState dfa with
  | JString s =>
      if negb (bool_decide (s ∈ states)) then Throw EInitialStateInvalid
      else if trims_to_empty s then Throw EInitialStateWhitespace
      else Ok s
  | x => Throw (EInitialStateNotString x)
  end.

Definition validateFinalStates (dfa : Spec.t) (states : gset string)
  : completion (gset string) :=
  finalStates ← deref (Spec.finalStates dfa);
  forEach (λ x (result : gset string),
    match x with
    | JString s =>
        if bool_decide (s ∈ result) then Throw (EFinalStatesDuplicate s)
        else if negb (bool_decide (s ∈ states)) then Throw (EFinalStatesUndefinedState s)
        else Ok (result ∪ {[s]})
    | _ => Throw (EFinalStatesNotString x)
    end) finalStates ∅.

(** The checks that both table builders run on a tuple [x] before touching
    the table: three elements, all strings, states and symbol declared.
    Returns [(x[0], x[1], x[2])]. *)
Definition checkTransition (states alphabet : gset string) (x : list jsval)
  : completion (string * string * string) :=
  if negb (Nat.eqb (length x) 3) then Throw (ETransitionNotTriple x) else
  _ ← forEach_i (λ y i,
         match y with
         | JString _ => Ok tt
         | _ => Throw (ETransitionNotString i y)
         end) x 0;
  match x with
  | [JString x0; JString x1; JString x2] =>
      if negb (bool_decide (x0 ∈ states)) then Throw (ETransitionFirst x0)
      else if negb (bool_decide (x1 ∈ states)) then Throw (ETransitionSecond x1)
      else if negb (bool_decide (x2 ∈ alphabet)) then Throw (ETransitionThird x2)
      else Ok (x0, x1, x2)
  | _ => Throw ETypeError
  end.

(** The own entry of a two-level table under [k1] then [k2], if any. *)
Definition lookup2 {V : Type} (table : gmap string (gmap string V))
  (k1 k2 : string) : option V :=
  match table !! k1 with
  | None => None
  | Some row => row !! k2
  end.

(** The callback of [validateTransitionsDFA].  When [result[x[0]]] is
    inherited it is a built-in object, whose properties the next statements
    read and write. *)
Definition stepTransitionDFA (states alphabet : gset string) (x : list jsval)
  (result : gmap string (gmap string string))
  : completion (gmap string (gmap string string)) :=
  '(x0, x1, x2) ← checkTransition states alphabet x;
  match get result x0 with
  | FromPrototype => Beyond
  | Undefined =>
      (* no throw; result[x0] = {}; result[x0][x2] = x1 *)
      Ok (<[x0 := put_string ∅ x2 x1]> result)
  | Own row =>
      match get row x2 with
      | Undefined => Ok (<[x0 := put_string row x2 x1]> result)
      | Own _ | FromPrototype => Throw (ENonDeterministic x0 x1 x2)
      end
  end.

Definition validateTransitionsDFA (dfa : Spec.t) (states alphabet : gset string)
  : completion (gmap string (gmap string string)) :=
  transitions ← deref (Spec.transitions dfa);
  forEach (stepTransitionDFA states alphabet) transitions ∅.

(** The callback of [validateTransitionsNFA].  An inherited
    [result[x[0]][x[2]]] is not [undefined] and has no [push]. *)
Definition stepTransitionNFA (states alphabet : gset string) (x : list jsval)
  (result : gmap string (gmap string (list string)))
  : completion (gmap string (gmap string (list string))) :=
  '(x0, x1, x2) ← checkTransition states alphabet x;
  row ← match get result x0 with
        | FromPrototype => Beyond
        | Undefined => Ok ∅                  (* result[x0] = {} *)
        | Own row => Ok row
        end;
  match get row x2 with
  | Undefined => Ok (<[x0 := <[x2 := [x1]]> row]> result)
  | Own targets => Ok (<[x0 := <[x2 := targets ++ [x1]]> row]> result)
  | FromPrototype => Throw ETypeError
  end.

Definition validateTransitionsNFA (dfa : Spec.t) (states alphabet : gset string)
  : completion (gmap string (gmap string (list string))) :=
  transitions ← deref (Spec.transitions dfa);
  forEach (stepTransitionNFA states alphabet) transitions ∅.

(** ** class DFA *)

Module DFA.

Record t := Build {
  alphabet : gset string;
  states : gset string;
  initialState : string;
  finalStates : gset string;
  transitions : gmap string (gmap string string);
  currentState : state_val;
  isInErrorState : bool
}.

Definition constructor (dfa : option Spec.t) : completion t :=
  _ ← validateDFAProperties dfa;
  dfa ← deref dfa;
  alphabet ← validateAlphabet dfa;
  states ← validateStates dfa;
  initialState ← validateInitialState dfa states;
  finalStates ← validateFinalStates dfa states;
  transitions ← validateTransitionsDFA dfa states alphabet;
  Ok (Build alphabet states initialState finalStates transitions
        (Name initialState) false).

Definition getCurrentState (this : t) : state_val := currentState this.

Definition isAcceptingState (this : t) : bool :=
  has_state (finalStates this) (currentState this).

Definition isErrorState (this : t) : bool := isInErrorState this.

Definition set_currentState (x : state_val) (this : t) : t :=
  Build (alphabet this) (states this) (initialState this) (finalStates this)
    (transitions this) x (isInErrorState this).

Definition set_isInErrorState (b : bool) (this : t) : t :=
  Build (alphabet this) (states this) (initialState this) (finalStates this)
    (transitions this) (currentState this) b.

(** [this.transitions[this.currentState]] that is inherited is a built-in
    object, whose property [input] the test then reads; an inherited
    [this.transitions[this.currentState][input]] is not [undefined] and
    becomes the current state. *)
Definition transition (input : jsval) (this : t) : completion unit * t :=
  if negb (has (alphabet this) input) then (Throw (ENotInAlphabet input), this)
  else if isErrorState this then (Ok tt, this)
  else
    match state_key (currentState this) with
    | None => (Beyond, this)
    | Some key =>
        match get (transitions this) key with
        | FromPrototype => (Beyond, this)
        | Undefined =>
            (Ok tt, set_isInErrorState true (set_currentState ErrorState this))
        | Own row =>
            match get row (property_key input) with
            | Undefined =>
                (Ok tt, set_isInErrorState true (set_currentState ErrorState this))
            | Own to => (Ok tt, set_currentState (Name to) this)
            | FromPrototype =>
                (Ok tt, set_currentState (Inherited (property_key input)) this)
            end
        end
    end.

(** A caller feeding symbols one at a time; an uncaught throw ends the run. *)
Fixpoint run (inputs : list jsval) (this : t) : completion unit * t :=
  match inputs with
  | [] => (Ok tt, this)
  | input :: rest =>
      match transition input this with
      | (Ok _, this') => run rest this'
      | (Throw e, this') => (Throw e, this')
      | (Beyond, this') => (Beyond, this')
      end
  end.

(** The instances a program can hold: built by [new DFA(dfa)] and then
    subjected to any calls of [transition], throwing or not. *)
Inductive reachable (dfa : option Spec.t) : t → Prop :=
  | reachable_new this :
      constructor dfa = Ok this → reachable dfa this
  | reachable_transition this input :
      reachable dfa this → reachable dfa (transition input this).2.

End DFA.

(** ** class NFA *)

Module NFA.

Record t := Build {
  alphabet : gset string;
  states : gset string;
  initialState : string;
  finalStates : gset string;
  transitions : gmap string (gmap string (list string));
  currentStates : list state_val
}.

Definition constructor (nfa : option Spec.t) : completion t :=
  _ ← validateDFAProperties nfa;
  nfa ← deref nfa;
  alphabet ← validateAlphabet nfa;
  states ← validateStates nfa;
  initialState ← validateInitialState nfa states;
  finalStates ← validateFinalStates nfa states;
  transitions ← validateTransitionsNFA nfa states alphabet;
  Ok (Build alphabet states initialState finalStates transitions
        [Name initialState]).

Definition getCurrentStates (this : t) : list state_val := currentStates this.

(** [reduce((prev, curr) => prev && finalStates.has(curr), true)] *)
Definition isAcceptingState (this : t) : bool :=
  fold_left (λ prev curr, prev && has_state (finalStates this) curr)
    (currentStates this) true.

Definition isErrorState (this : t) : bool :=
  Nat.eqb (length (currentStates this)) 0.

Definition set_currentStates (l : list state_val) (this : t) : t :=
  Build (alphabet this) (states this) (initialState this) (finalStates this)
    (transitions this) l.

(** The body of [this.currentStates.forEach(x => ...)]: what one active
    value appends to [result].  An inherited [this.transitions[x][input]] is
    not [undefined] and has no [forEach]. *)
Definition visit (this : t) (input : jsval) (x : state_val)
  (result : list state_val) : completion (list state_val) :=
  match state_key x with
  | None => Beyond
  | Some key =>
      match get (transitions this) key with
      | FromPrototype => Beyond
      | Undefined => Ok (result ++ [ErrorState])
      | Own row =>
          match get row (property_key input) with
          | Undefined => Ok (result ++ [ErrorState])
          | Own targets => Ok (result ++ (Name <$> targets))
          | FromPrototype => Throw ETypeError
          end
      end
  end.

Definition transition (input : jsval) (this : t) : completion unit * t :=
  if negb (has (alphabet this) input) then (Throw (ENotInAlphabet input), this)
  else if isErrorState this then (Ok tt, this)
  else
    match forEach (visit this input) (currentStates this) [] with
    | Ok result =>
        (Ok tt,
         set_currentStates
           (filter (λ x, negb (instanceof_ErrorState x) = true) result) this)
    | Throw e => (Throw e, this)
    | Beyond => (Beyond, this)
    end.

Fixpoint run (inputs : list jsval) (this : t) : completion unit * t :=
  match inputs with
  | [] => (Ok tt, this)
  | input :: rest =>
      match transition input this with
      | (Ok _, this') => run rest this'
      | (Throw e, this') => (Throw e, this')
      | (Beyond, this') => (Beyond, this')
      end
  end.

Inductive reachable (nfa : option Spec.t) : t → Prop :=
  | reachable_new this :
      constructor nfa = Ok this → reachable nfa this
  | reachable_transition this input :
      reachable nfa this → reachable nfa (transition input this).2.

End NFA.

(** ** The scenarios of the spec, run on the model *)

Definition spec_dfa : Spec.t :=
  Spec.Build (Some [JString "a"; JString "b"])
    (Some [JString "s1"; JString "s2"; JString "s3"])
    (JString "s1") (Some [JString "s3"])
    (Some [[JString "s1"; JString "s2"; JString "a"];
           [JString "s2"; JString "s3"; JString "b"]]).

Definition spec_nfa : Spec.t :=
  Spec.Build (Some [JString "a"; JString "b"])
    (Some [JString "s1"; JString "s2"; JString "s3"])
    (JString "s1") (Some [JString "s3"])
    (Some [[JString "s1"; JString "s2"; JString "a"];
           [JString "s1"; JString "s3"; JString "a"]]).

(** A spec that declares the same tuple twice. *)
Definition spec_twice : Spec.t :=
  Spec.Build (Some [JString "a"; JString "b"])
    (Some [JString "s1"; JString "s2"; JString "s3"])
    (JString "s1") (Some [JString "s3"])
    (Some [[JString "s1"; JString "s2"; JString "a"];
           [JString "s1"; JString "s2"; JString "a"]]).

(** A spec without repeated tuples in which two states share a successor. *)
Definition spec_merge : Spec.t :=
  Spec.Build (Some [JString "a"; JString "b"])
    (Some [JString "s1"; JString "s2"; JString "s3"])
    (JString "s1") (Some [JString "s3"])
    (Some [[JString "s1"; JString "s2"; JString "a"];
           [JString "s1"; JString "s3"; JString "a"];
           [JString "s2"; JString "s2"; JString "a"];
           [JString "s3"; JString "s2"; JString "a"]]).

(** The instances [new DFA(spec_dfa)] and [new NFA(spec_nfa)], written out. *)
Definition dfa_s1 : DFA.t :=
  DFA.Build {["a"; "b"]} {["s1"; "s2"; "s3"]} "s1" {["s3"]}
    {["s1" := {["a" := "s2"]}; "s2" := {["b" := "s3"]}]}
    (Name "s1") false.

Definition nfa_s1 : NFA.t :=
  NFA.Build {["a"; "b"]} {["s1"; "s2"; "s3"]} "s1" {["s3"]}
    {["s1" := {["a" := ["s2"; "s3"]]}]}
    [Name "s1"].

(** [new NFA(spec_twice)] and [new NFA(spec_merge)]. *)
Definition nfa_twice : NFA.t :=
  NFA.Build {["a"; "b"]} {["s1"; "s2"; "s3"]} "s1" {["s3"]}
    {["s1" := {["a" := ["s2"; "s2"]]}]}
    [Name "s1"].

Definition nfa_merge : NFA.t :=
  NFA.Build {["a"; "b"]} {["s1"; "s2"; "s3"]} "s1" {["s3"]}
    {["s1" := {["a" := ["s2"; "s3"]]};
      "s2" := {["a" := ["s2"]]};
      "s3" := {["a" := ["s2"]]}]}
    [Name "s1"].

(** [dfa_s1] after ['a'] then ['b'], and after ['b'] alone; [nfa_s1] after
    ['a'], and after ['b']. *)
Definition dfa_s3 : DFA.t :=
  (DFA.transition (JString "b") (DFA.transition (JString "a") dfa_s1).2).2.

Definition dfa_dead : DFA.t := (DFA.transition (JString "b") dfa_s1).2.

Definition nfa_s2_s3 : NFA.t := (NFA.transition (JString "a") nfa_s1).2.

Definition nfa_dead : NFA.t := (NFA.transition (JString "b") nfa_s1).2.


(** ** Vocabulary for statements about the tables *)

(** A well-shaped transition tuple [(from, to, symbol)] as it sits in the
    raw spec. *)
Definition triple (x : string * string * string) : list jsval :=
  [JString x.1.1; JString x.1.2; JString x.2].

Definition declared (states alphabet : gset string)
  (x : string * string * string) : Prop :=
  x.1.1 ∈ states ∧ x.1.2 ∈ states ∧ x.2 ∈ alphabet.

#[global] Instance declared_dec (states alphabet : gset string)
  (x : string * string * string) : Decision (declared states alphabet x).
Proof. unfold declared. apply _. Defined.

Definition from_symbol (x : string * string * string) : string * string :=
  (x.1.1, x.2).

Definition to_symbol (x : string * string * string) : string * string :=
  (x.1.2, x.2).

(** The [to] components of the tuples declared for [(from, symbol)], in
    declaration order and with repetitions. *)
Definition targets_of (ts : list (string * string * string))
  (from symbol : string) : list string :=
  omap (λ x, if decide (from_symbol x = (from, symbol)) then Some x.1.2 else None) ts.

(** The own entry of the NFA table for an active value and an input, read as
    a list: nothing when there is none. *)
Definition successors (this : NFA.t) (input : jsval) (x : state_val)
  : list string :=
  match state_key x with
  | Some key =>
      default [] (lookup2 (NFA.transitions this) key (property_key input))
  | None => []
  end.

(** The targets that the tuples [ts] declare for an active value and a
    symbol. *)
Definition declared_successors (ts : list (string * string * string))
  (symbol : string) (x : state_val) : list string :=
  match x with Name s => targets_of ts s symbol | _ => [] end.

(** What [visit] appends to [result] when it returns. *)
Definition pushed (this : NFA.t) (input : jsval) (x : state_val)
  : list state_val :=
  match state_key x with
  | Some key =>
      match lookup2 (NFA.transitions this) key (property_key input) with
      | Some targets => Name <$> targets
      | None => [ErrorState]
      end
  | None => [ErrorState]
  end.

(** The table with the own entry [v] under [k1] then [k2], the row [k1]
    being made if it is not there. *)
Definition store {V : Type} (table : gmap string (gmap string V))
  (k1 k2 : string) (v : V) : gmap string (gmap string V) :=
  <[k1 := <[k2 := v]> (default ∅ (table !! k1))]> table.

(** Names that [Object.prototype] does not hold. *)
Definition plain (names : gset string) : Prop :=
  ∀ k, k ∈ names → inherited k = false.

#[global] Instance plain_dec (names : gset string) : Decision (plain names).
Proof. exact (set_Forall_dec (λ k, inherited k = false) names). Defined.

Definition plain_value (v : jsval) : bool :=
  match v with JString k => negb (inherited k) | _ => true end.

Definition plain_states (dfa : Spec.t) : Prop :=
  Forall (λ v, plain_value v = true) (default [] (Spec.states dfa)).

Definition plain_alphabet (dfa : Spec.t) : Prop :=
  Forall (λ v, plain_value v = true) (default [] (Spec.alphabet dfa)).

Definition plain_spec (dfa : Spec.t) : Prop :=
  plain_states dfa ∧ plain_alphabet dfa.

#[global] Instance plain_spec_dec (dfa : Spec.t) : Decision (plain_spec dfa).
Proof. unfold plain_spec, plain_states, plain_alphabet. apply _. Defined.

(** What a table holds, stated against the declared tuples [ts]. *)
Definition dfa_table_of (table : gmap string (gmap string string))
  (ts : list (string * string * string)) : Prop :=
  ∀ from symbol to,
    lookup2 table from symbol = Some to ↔ (from, to, symbol) ∈ ts.

Definition nfa_table_of (table : gmap string (gmap string (list string)))
  (ts : list (string * string * string)) : Prop :=
  ∀ from symbol,
    lookup2 table from symbol
    = match targets_of ts from symbol with
      | [] => None
      | targets => Some targets
      end.

(** ** Vocabulary for statements about the validators *)

(** The shape shared by the callbacks of [validateAlphabet], [validateStates]
    and [validateFinalStates]: a non-string is refused, then a name already in
    [result], then a name failing the third test; otherwise the name is
    added. *)
Definition add_name (notString : jsval → error) (duplicate : string → error)
  (bad : string → bool) (refused : string → error)
  (x : jsval) (result : gset string) : completion (gset string) :=
  match x with
  | JString s =>
      if bool_decide (s ∈ result) then Throw (duplicate s)
      else if bad s then Throw (refused s)
      else Ok (result ∪ {[s]})
  | _ => Throw (notString x)
  end.


(** ** Vocabulary for statements about instances *)

(** The parts of an instance that [transition] never assigns. *)
Definition dfa_static (this : DFA.t)
  : gset string * gset string * string * gset string
    * gmap string (gmap string string) :=
  (DFA.alphabet this, DFA.states this, DFA.initialState this,
   DFA.finalStates this, DFA.transitions this).

Definition nfa_static (this : NFA.t)
  : gset string * gset string * string * gset string
    * gmap string (gmap string (list string)) :=
  (NFA.alphabet this, NFA.states this, NFA.initialState this,
   NFA.finalStates this, NFA.transitions this).

(** Every name held by the instance is a declared one. *)
Definition dfa_closed (this : DFA.t) : Prop :=
  DFA.initialState this ∈ DFA.states this
  ∧ DFA.finalStates this ⊆ DFA.states this
  ∧ ∀ from symbol to,
      lookup2 (DFA.transitions this) from symbol = Some to →
      from ∈ DFA.states this ∧ to ∈ DFA.states this
      ∧ symbol ∈ DFA.alphabet this.

Definition nfa_closed (this : NFA.t) : Prop :=
  NFA.initialState this ∈ NFA.states this
  ∧ NFA.finalStates this ⊆ NFA.states this
  ∧ ∀ from symbol targets,
      lookup2 (NFA.transitions this) from symbol = Some targets →
      targets ≠ [] ∧ from ∈ NFA.states this
      ∧ symbol ∈ NFA.alphabet this
      ∧ ∀ to, to ∈ targets → to ∈ NFA.states this.

(** What the NFA built from the same spec holds when the DFA holds
    [current]: the one active state, or nothing in the error state. *)
Definition active_of (this : DFA.t) : list state_val :=
  if DFA.isErrorState this then [] else [DFA.getCurrentState this].

(** A DFA and the NFA built from the same spec, seen side by side: same
    alphabet and final states, every DFA entry a one-element NFA entry, and
    the NFA's active collection what the DFA's runtime state amounts to. *)
Definition side_by_side (d : DFA.t) (n : NFA.t) : Prop :=
  NFA.alphabet n = DFA.alphabet d
  ∧ NFA.finalStates n = DFA.finalStates d
  ∧ (∀ from symbol,
        lookup2 (NFA.transitions n) from symbol
        = (λ to, [to]) <$> lookup2 (DFA.transitions d) from symbol)
  ∧ NFA.currentStates n = active_of d
  ∧ (DFA.isInErrorState d = false → ∃ s, DFA.currentState d = Name s).

(** The parity automaton over [0] and [1]. *)
Definition spec_parity : Spec.t :=
  Spec.Build (Some [JString "0"; JString "1"])
    (Some [JString "even"; JString "odd"])
    (JString "even") (Some [JString "even"])
    (Some [[JString "even"; JString "odd"; JString "1"];
           [JString "odd"; JString "even"; JString "1"];
           [JString "even"; JString "even"; JString "0"];
           [JString "odd"; JString "odd"; JString "0"]]).

Definition parity_tuples : list (string * string * string) :=
  [("even", "odd", "1"); ("odd", "even", "1");
   ("even", "even", "0"); ("odd", "odd", "0")].


Definition spec_number : Spec.t :=
  Spec.Build (Some [JString "a"; JString "b"])
    (Some [JString "s1"; JString "s2"; JString "s3"])
    (JString "s1") (Some [JString "s3"])
    (Some [[JString "s1"; JString "s2"; JString "a"];
           [JString "s2"; JNumber 3; JString "b"]]).

(** A spec read as lists of names: pairwise distinct, non-blank symbols and
    states, an initial state and pairwise distinct final states among the
    states, and transitions that are triples of declared names. *)
Definition valid_spec (dfa : Spec.t) (alphabet states finals : list string)
  (init : string) (ts : list (string * string * string)) : Prop :=
  Spec.alphabet dfa = Some (JString <$> alphabet)
  ∧ NoDup alphabet ∧ Forall (λ s, trims_to_empty s = false) alphabet
  ∧ Spec.states dfa = Some (JString <$> states)
  ∧ NoDup states ∧ Forall (λ s, trims_to_empty s = false) states
  ∧ Spec.initialState dfa = JString init ∧ init ∈ states
  ∧ Spec.finalStates dfa = Some (JString <$> finals)
  ∧ NoDup finals ∧ Forall (λ s, s ∈ states) finals
  ∧ Spec.transitions dfa = Some (triple <$> ts)
  ∧ Forall (declared (list_to_set states) (list_to_set alphabet)) ts.

(** ** Scenarios with inherited names *)

(** A symbol named like a function of [Object.prototype], declared in no
    transition. *)
Definition spec_toString : Spec.t :=
  Spec.Build (Some [JString "a"; JString "toString"])
    (Some [JString "s1"; JString "s2"])
    (JString "s1") (Some [JString "s2"])
    (Some [[JString "s1"; JString "s2"; JString "a"]]).

Definition dfa_toString : DFA.t :=
  DFA.Build {["a"; "toString"]} {["s1"; "s2"]} "s1" {["s2"]}
    {["s1" := {["a" := "s2"]}]}
    (Name "s1") false.

Definition nfa_toString : NFA.t :=
  NFA.Build {["a"; "toString"]} {["s1"; "s2"]} "s1" {["s2"]}
    {["s1" := {["a" := ["s2"]]}]}
    [Name "s1"].

(** Two transitions out of [s1] on different symbols, the second symbol
    named like a function of [Object.prototype]. *)
Definition spec_constructor : Spec.t :=
  Spec.Build (Some [JString "a"; JString "constructor"])
    (Some [JString "s1"; JString "s2"])
    (JString "s1") (Some [JString "s2"])
    (Some [[JString "s1"; JString "s2"; JString "a"];
           [JString "s1"; JString "s2"; JString "constructor"]]).

(** A state named [__proto__] with a transition out of it. *)
Definition spec_proto : Spec.t :=
  Spec.Build (Some [JString "a"])
    (Some [JString "s1"; JString "__proto__"])
    (JString "s1") (Some [JString "s1"])
    (Some [[JString "__proto__"; JString "s1"; JString "a"]]).

(** * Properties *)

(** ** The scenarios *)

Example ex_trims_to_empty :
  trims_to_empty "" = true
  ∧ trims_to_empty "  " = true
  ∧ trims_to_empty (String (Ascii.ascii_of_nat 194) (String (Ascii.ascii_of_nat 160) " ")) = true
  ∧ trims_to_empty " s1 " = false.
Proof. repeat split. Qed.

Example ex_new_dfa : DFA.constructor (Some spec_dfa) = Ok dfa_s1.
Proof. vm_compute. reflexivity. Qed.

Example ex_new_nfa : NFA.constructor (Some spec_nfa) = Ok nfa_s1.
Proof. vm_compute. reflexivity. Qed.

Example ex_new_nfa_twice : NFA.constructor (Some spec_twice) = Ok nfa_twice.
Proof. vm_compute. reflexivity. Qed.

Example ex_new_nfa_merge : NFA.constructor (Some spec_merge) = Ok nfa_merge.
Proof. vm_compute. reflexivity. Qed.

(** The DFA builder refuses what the NFA builder accepts. *)
Example ex_new_dfa_conflict :
  DFA.constructor (Some spec_nfa) = Throw (ENonDeterministic "s1" "s3" "a").
Proof. vm_compute. reflexivity. Qed.

(** The DFA scenario: ['a'] leads to [s2], not accepting; ['b'] then leads to
    [s3], accepting; ['b'] from [s1] leads to the error state, where a
    further ['a'] changes nothing. *)
Example ex_dfa_scenario :
  DFA.getCurrentState (DFA.transition (JString "a") dfa_s1).2 = Name "s2"
  ∧ DFA.isAcceptingState (DFA.transition (JString "a") dfa_s1).2 = false
  ∧ DFA.getCurrentState dfa_s3 = Name "s3"
  ∧ DFA.isAcceptingState dfa_s3 = true
  ∧ DFA.isErrorState dfa_dead = true
  ∧ DFA.transition (JString "a") dfa_dead = (Ok tt, dfa_dead).
Proof. vm_compute. repeat split. Qed.

(** Inherited names: a symbol named [toString] is accepted by both
    constructors; a second transition out of [s1] on [constructor] is refused
    by the DFA builder as non-deterministic and makes the NFA builder raise a
    type error; a transition out of a state named [__proto__] leaves what is
    modelled. *)
Example ex_inherited_names :
  DFA.constructor (Some spec_toString) = Ok dfa_toString
  ∧ NFA.constructor (Some spec_toString) = Ok nfa_toString
  ∧ DFA.constructor (Some spec_constructor)
    = Throw (ENonDeterministic "s1" "s2" "constructor")
  ∧ NFA.constructor (Some spec_constructor) = Throw ETypeError
  ∧ DFA.constructor (Some spec_proto) = Beyond
  ∧ NFA.constructor (Some spec_proto) = Beyond.
Proof. vm_compute. repeat split. Qed.

(** The NFA scenario: after ['a'] the active collection is [s2, s3]. *)
Example ex_nfa_scenario :
  NFA.getCurrentStates nfa_s2_s3 = [Name "s2"; Name "s3"]
  ∧ NFA.getCurrentStates nfa_dead = [].
Proof. vm_compute. repeat split. Qed.

(** ** The error monad and [forEach] *)

Lemma bind_Ok {A B : Type} (m : completion A) (k : A → completion B) (b : B) :
  m ≫= k = Ok b ↔ ∃ a, m = Ok a ∧ k a = Ok b.
Proof.
  destruct m as [a|e|]; simpl; split.
  - eauto.
  - intros (a' & [= <-] & Hk). exact Hk.
  - discriminate.
  - intros (a' & [=] & _).
  - discriminate.
  - intros (a' & [=] & _).
Qed.

Lemma forEach_app {A S : Type} (f : A → S → completion S) (l1 l2 : list A) (acc : S) :
  forEach f (l1 ++ l2) acc = forEach f l1 acc ≫= forEach f l2.
Proof.
  revert acc. induction l1 as [|x l1 IH]; intros acc; simpl.
  - reflexivity.
  - destruct (f x acc) as [acc'|e|]; simpl; [apply IH | reflexivity | reflexivity].
Qed.

Lemma has_true (set : gset string) (v : jsval) :
  has set v = true ↔ ∃ s, v = JString s ∧ s ∈ set.
Proof.
  destruct v; simpl; try (split; [discriminate | intros (? & [=] & _)]).
  rewrite bool_decide_eq_true. split.
  - eauto.
  - intros (s' & [= ->] & Hs). exact Hs.
Qed.

Lemma has_state_true (set : gset string) (x : state_val) :
  has_state set x = true ↔ ∃ s, x = Name s ∧ s ∈ set.
Proof.
  destruct x as [s| |k]; simpl.
  - rewrite bool_decide_eq_true. split.
    + eauto.
    + intros (s' & [= ->] & Hs). exact Hs.
  - split; [discriminate | intros (? & [=] & _)].
  - split; [discriminate | intros (? & [=] & _)].
Qed.

(** ** Unknown symbols *)

(** C2: in every runtime state of a DFA or an NFA, the error state included,
    [transition] called with a value that is not a member of the alphabet
    throws the unknown-symbol error, and the instance is left as it was: the
    check comes before any other effect of the call. *)
Theorem transition_unknown_symbol_throws :
  (∀ (this : DFA.t) (input : jsval),
      has (DFA.alphabet this) input = false →
      DFA.transition input this = (Throw (ENotInAlphabet input), this))
  ∧ (∀ (this : NFA.t) (input : jsval),
      has (NFA.alphabet this) input = false →
      NFA.transition input this = (Throw (ENotInAlphabet input), this)).
Proof.
  split; intros this input Hin.
  - unfold DFA.transition. rewrite Hin. reflexivity.
  - unfold NFA.transition. rewrite Hin. reflexivity.
Qed.

(** ** One step of the DFA on an inherited name *)

(** C3, where the code departs from it: for the DFA built from a spec whose
    alphabet has the symbol [toString] and whose transitions declare nothing
    for ([s1], [toString]), the table has no entry for that pair, yet
    [transition('toString')] from [s1] does not enter the error state: the
    test reads the function that the row inherits, which is not [undefined],
    and makes it the current state. *)
Theorem dfa_transition_takes_inherited_value :
  DFA.constructor (Some spec_toString) = Ok dfa_toString
  ∧ DFA.isErrorState dfa_toString = false
  ∧ has (DFA.alphabet dfa_toString) (JString "toString") = true
  ∧ lookup2 (DFA.transitions dfa_toString) "s1" "toString" = None
  ∧ DFA.transition (JString "toString") dfa_toString
    = (Ok tt, DFA.set_currentState (Inherited "toString") dfa_toString)
  ∧ DFA.isErrorState (DFA.transition (JString "toString") dfa_toString).2
    = false.
Proof. vm_compute. repeat split. Qed.

(** ** Absorption *)

(** C7: once [isErrorState()] is true for a DFA, any sequence of calls of
    [transition] with symbols of the alphabet returns normally and leaves the
    instance exactly as it was; [isErrorState()] is still true. *)
Theorem dfa_error_state_absorbing (this : DFA.t) (inputs : list jsval) :
  DFA.isErrorState this = true →
  Forall (λ input, has (DFA.alphabet this) input = true) inputs →
  DFA.run inputs this = (Ok tt, this)
  ∧ DFA.isErrorState (DFA.run inputs this).2 = true.
Proof.
  intros Herr Hall.
  assert (Hrun : DFA.run inputs this = (Ok tt, this)).
  { induction Hall as [|input rest Hin _ IH]; simpl.
    - reflexivity.
    - unfold DFA.transition. rewrite Hin, Herr. simpl. exact IH. }
  rewrite Hrun. split; [reflexivity | exact Herr].
Qed.

(** C8: once the active collection of an NFA is empty, any sequence of calls
    of [transition] with symbols of the alphabet returns normally and leaves
    the instance as it was: the collection stays empty. *)
Theorem nfa_dead_configuration_absorbing (this : NFA.t) (inputs : list jsval) :
  NFA.getCurrentStates this = [] →
  Forall (λ input, has (NFA.alphabet this) input = true) inputs →
  NFA.run inputs this = (Ok tt, this)
  ∧ NFA.getCurrentStates (NFA.run inputs this).2 = []
  ∧ NFA.isErrorState (NFA.run inputs this).2 = true.
Proof.
  intros Hempty Hall.
  assert (Herr : NFA.isErrorState this = true).
  { unfold NFA.isErrorState. unfold NFA.getCurrentStates in Hempty.
    rewrite Hempty. reflexivity. }
  assert (Hrun : NFA.run inputs this = (Ok tt, this)).
  { induction Hall as [|input rest Hin _ IH]; simpl.
    - reflexivity.
    - unfold NFA.transition. rewrite Hin, Herr. simpl. exact IH. }
  rewrite Hrun. simpl. auto.
Qed.

(** ** Acceptance *)

Lemma reduce_and_true {X : Type} (p : X → bool) (l : list X) (prev : bool) :
  fold_left (λ prev curr, prev && p curr) l prev = true
  ↔ prev = true ∧ ∀ x, x ∈ l → p x = true.
Proof.
  revert prev. induction l as [|y l IH]; intros prev; simpl.
  - split; [intros ->; split; [reflexivity|]|tauto].
    intros x Hx. inversion Hx.
  - rewrite IH, andb_true_iff. split.
    + intros [[-> Hy] Hl]. split; [reflexivity|].
      intros x [->|Hx]%elem_of_cons; auto.
    + intros [-> Hl]. repeat split.
      * apply Hl. left.
      * intros x Hx. apply Hl. right. exact Hx.
Qed.

(** C10: [isAcceptingState()] of an NFA is true exactly when every value in
    the active collection is the name of a final state; with an empty active
    collection it is true, and [isErrorState()] is true as well. *)
Theorem nfa_accepting_iff_all_final (this : NFA.t) :
  (NFA.isAcceptingState this = true
   ↔ ∀ x, x ∈ NFA.getCurrentStates this →
          ∃ s, x = Name s ∧ s ∈ NFA.finalStates this)
  ∧ (NFA.getCurrentStates this = [] →
     NFA.isAcceptingState this = true ∧ NFA.isErrorState this = true).
Proof.
  unfold NFA.isAcceptingState, NFA.isErrorState, NFA.getCurrentStates. split.
  - rewrite reduce_and_true. split.
    + intros [_ Hall] x Hx. apply has_state_true, Hall, Hx.
    + intros Hall. split; [reflexivity|].
      intros x Hx. apply has_state_true, Hall, Hx.
  - intros ->. split; reflexivity.
Qed.

(** ** Construction *)

Lemma validateInitialState_Ok (dfa : Spec.t) (states : gset string) (s : string) :
  validateInitialState dfa states = Ok s →
  Spec.initialState dfa = JString s ∧ s ∈ states.
Proof.
  unfold validateInitialState.
  destruct (Spec.initialState dfa) as [| |b|n|s'|]; try discriminate.
  destruct (decide (s' ∈ states)) as [Hin|Hout].
  - rewrite (bool_decide_eq_true_2 _ Hin). simpl.
    destruct (trims_to_empty s'); [discriminate|].
    intros [= ->]. auto.
  - rewrite (bool_decide_eq_false_2 _ Hout). discriminate.
Qed.

Lemma dfa_constructor_Ok (arg : option Spec.t) (this : DFA.t) :
  DFA.constructor arg = Ok this →
  ∃ dfa, arg = Some dfa
    ∧ validateAlphabet dfa = Ok (DFA.alphabet this)
    ∧ validateStates dfa = Ok (DFA.states this)
    ∧ validateInitialState dfa (DFA.states this) = Ok (DFA.initialState this)
    ∧ validateFinalStates dfa (DFA.states this) = Ok (DFA.finalStates this)
    ∧ validateTransitionsDFA dfa (DFA.states this) (DFA.alphabet this)
      = Ok (DFA.transitions this)
    ∧ DFA.currentState this = Name (DFA.initialState this)
    ∧ DFA.isInErrorState this = false.
Proof.
  unfold DFA.constructor. intros H.
  apply bind_Ok in H as (_ & _ & H).
  apply bind_Ok in H as (dfa & Hdfa & H).
  apply bind_Ok in H as (alphabet & Ha & H).
  apply bind_Ok in H as (states & Hs & H).
  apply bind_Ok in H as (initialState & Hi & H).
  apply bind_Ok in H as (finalStates & Hf & H).
  apply bind_Ok in H as (transitions & Ht & H).
  injection H as <-. simpl.
  destruct arg as [dfa'|]; [|discriminate]. injection Hdfa as ->.
  exists dfa. repeat split; assumption.
Qed.

Lemma nfa_constructor_Ok (arg : option Spec.t) (this : NFA.t) :
  NFA.constructor arg = Ok this →
  ∃ nfa, arg = Some nfa
    ∧ validateAlphabet nfa = Ok (NFA.alphabet this)
    ∧ validateStates nfa = Ok (NFA.states this)
    ∧ validateInitialState nfa (NFA.states this) = Ok (NFA.initialState this)
    ∧ validateFinalStates nfa (NFA.states this) = Ok (NFA.finalStates this)
    ∧ validateTransitionsNFA nfa (NFA.states this) (NFA.alphabet this)
      = Ok (NFA.transitions this)
    ∧ NFA.currentStates this = [Name (NFA.initialState this)].
Proof.
  unfold NFA.constructor. intros H.
  apply bind_Ok in H as (_ & _ & H).
  apply bind_Ok in H as (nfa & Hnfa & H).
  apply bind_Ok in H as (alphabet & Ha & H).
  apply bind_Ok in H as (states & Hs & H).
  apply bind_Ok in H as (initialState & Hi & H).
  apply bind_Ok in H as (finalStates & Hf & H).
  apply bind_Ok in H as (transitions & Ht & H).
  injection H as <-. simpl.
  destruct arg as [nfa'|]; [|discriminate]. injection Hnfa as ->.
  exists nfa. repeat split; assumption.
Qed.


(** ** Reachable instances of the DFA *)

(** The flag [isInErrorState] and the [ErrorState] object in [currentState]
    go together, and the static parts are those the constructor built. *)
Lemma dfa_reachable_flag (dfa : option Spec.t) (this : DFA.t) :
  DFA.reachable dfa this →
  (DFA.isInErrorState this = true ↔ DFA.currentState this = ErrorState).
Proof.
  induction 1 as [this Hnew|this input _ IH].
  - apply dfa_constructor_Ok in Hnew as (_ & _ & _ & _ & _ & _ & _ & -> & ->).
    split; discriminate.
  - unfold DFA.transition, DFA.isErrorState.
    destruct (negb (has _ input)); [exact IH|].
    destruct (DFA.isInErrorState this) eqn:Hflag; [simpl; rewrite Hflag; exact IH|].
    destruct (state_key _) as [key|]; [|simpl; rewrite Hflag; exact IH].
    destruct (get _ key) as [|row|]; simpl.
    + tauto.
    + destruct (get row _) as [|to|]; simpl; rewrite ?Hflag;
        first [tauto | split; discriminate].
    + rewrite Hflag. exact IH.
Qed.


(** ** Reading an object literal *)

Lemma get_plain {V : Type} (obj : gmap string V) (k : string) :
  inherited k = false →
  get obj k = match obj !! k with Some v => Own v | None => Undefined end.
Proof. intros Hk. unfold get. rewrite Hk. reflexivity. Qed.

Lemma get_Undefined {V : Type} (obj : gmap string V) (k : string) :
  get obj k = Undefined → obj !! k = None ∧ inherited k = false.
Proof.
  unfold get. destruct (obj !! k); [discriminate|].
  destruct (inherited k); [discriminate | auto].
Qed.

Lemma get_Own {V : Type} (obj : gmap string V) (k : string) (v : V) :
  get obj k = Own v → obj !! k = Some v.
Proof.
  unfold get. destruct (obj !! k); [congruence|].
  destruct (inherited k); discriminate.
Qed.

Lemma get_FromPrototype {V : Type} (obj : gmap string V) (k : string) :
  get obj k = FromPrototype → obj !! k = None ∧ inherited k = true.
Proof.
  unfold get. destruct (obj !! k); [discriminate|].
  destruct (inherited k); [auto | discriminate].
Qed.

Lemma put_string_plain (obj : gmap string string) (k v : string) :
  inherited k = false → put_string obj k v = <[k := v]> obj.
Proof.
  intros Hk. unfold put_string.
  destruct (String.eqb_spec k "__proto__") as [->|_]; [discriminate Hk | reflexivity].
Qed.

(** ** One step of the NFA *)

Lemma filter_Name (targets : list string) :
  filter (λ x, negb (instanceof_ErrorState x) = true) (Name <$> targets)
  = Name <$> targets.
Proof.
  induction targets as [|to targets IH]; [reflexivity|].
  rewrite fmap_cons, filter_cons_True by reflexivity. rewrite IH. reflexivity.
Qed.

Lemma filter_pushed (this : NFA.t) (input : jsval) (x : state_val) :
  filter (λ x, negb (instanceof_ErrorState x) = true) (pushed this input x)
  = Name <$> successors this input x.
Proof.
  unfold pushed, successors.
  destruct (state_key x) as [key|]; [|reflexivity].
  destruct (lookup2 _ _ _) as [targets|]; simpl.
  - apply filter_Name.
  - reflexivity.
Qed.

Lemma filter_bind_pushed (this : NFA.t) (input : jsval) (l : list state_val) :
  filter (λ x, negb (instanceof_ErrorState x) = true) (l ≫= pushed this input)
  = l ≫= λ x, Name <$> successors this input x.
Proof.
  induction l as [|x l IH]; [reflexivity|].
  rewrite !bind_cons, filter_app, IH, filter_pushed. reflexivity.
Qed.

(** When [visit] returns it has appended [pushed]. *)
Lemma visit_Ok (this : NFA.t) (input : jsval) (x : state_val)
  (acc result : list state_val) :
  NFA.visit this input x acc = Ok result → result = acc ++ pushed this input x.
Proof.
  unfold NFA.visit, pushed, lookup2.
  destruct (state_key x) as [key|]; [|discriminate].
  destruct (get _ key) as [|row|] eqn:Hrow; [| |discriminate].
  - apply get_Undefined in Hrow as [-> _]. congruence.
  - apply get_Own in Hrow as ->.
    destruct (get row _) as [|targets|] eqn:Hto; [| |discriminate].
    + apply get_Undefined in Hto as [-> _]. congruence.
    + apply get_Own in Hto as ->. congruence.
Qed.

Lemma forEach_visit_Ok (this : NFA.t) (input : jsval) (l : list state_val)
  (acc result : list state_val) :
  forEach (NFA.visit this input) l acc = Ok result →
  result = acc ++ (l ≫= pushed this input).
Proof.
  revert acc. induction l as [|x l IH]; intros acc; cbn [forEach].
  - intros [= <-]. symmetry. apply app_nil_r.
  - intros (acc' & Hx & Hl)%bind_Ok.
    apply visit_Ok in Hx as ->. apply IH in Hl as ->.
    rewrite bind_cons, app_assoc. reflexivity.
Qed.

(** A value and an input that are not inherited names make [visit] return. *)
Lemma visit_plain (this : NFA.t) (input : jsval) (x : state_val) (key : string)
  (acc : list state_val) :
  state_key x = Some key → inherited key = false →
  inherited (property_key input) = false →
  NFA.visit this input x acc = Ok (acc ++ pushed this input x).
Proof.
  intros Hx Hkey Hin. unfold NFA.visit, pushed, lookup2. rewrite Hx.
  rewrite (get_plain _ _ Hkey).
  destruct (NFA.transitions this !! key) as [row|]; [|reflexivity].
  rewrite (get_plain _ _ Hin). destruct (row !! _); reflexivity.
Qed.

Lemma forEach_visit_plain (this : NFA.t) (input : jsval) (l : list state_val)
  (acc : list state_val) :
  Forall (λ x, ∃ key, state_key x = Some key ∧ inherited key = false) l →
  inherited (property_key input) = false →
  forEach (NFA.visit this input) l acc = Ok (acc ++ (l ≫= pushed this input)).
Proof.
  intros Hl Hin. revert acc.
  induction Hl as [|x l (key & Hx & Hkey) _ IH]; intros acc; cbn [forEach].
  - rewrite app_nil_r. reflexivity.
  - rewrite bind_cons, app_assoc, (visit_plain _ _ _ _ _ Hx Hkey Hin).
    exact (IH _).
Qed.

(** A call of [transition] leaves the instance as it was, or returns with
    the own entries of the active values as the new active collection. *)
Lemma nfa_transition_cases (this : NFA.t) (input : jsval) :
  (NFA.transition input this).2 = this
  ∨ (has (NFA.alphabet this) input = true
     ∧ NFA.transition input this
       = (Ok tt,
          NFA.set_currentStates
            (NFA.currentStates this ≫= λ x, Name <$> successors this input x)
            this)).
Proof.
  unfold NFA.transition.
  destruct (has (NFA.alphabet this) input) eqn:Hin; [|left; reflexivity].
  simpl. destruct (NFA.isErrorState this); [left; reflexivity|].
  destruct (forEach _ _ _) as [result| |] eqn:Hrun; [|left; reflexivity..].
  right. split; [reflexivity|].
  apply forEach_visit_Ok in Hrun as ->.
  rewrite app_nil_l, filter_bind_pushed. reflexivity.
Qed.

Lemma nfa_transition_alive (this : NFA.t) (input : jsval) :
  NFA.currentStates this ≠ [] →
  has (NFA.alphabet this) input = true →
  Forall (λ x, ∃ key, state_key x = Some key ∧ inherited key = false)
    (NFA.currentStates this) →
  inherited (property_key input) = false →
  NFA.transition input this
  = (Ok tt,
     NFA.set_currentStates
       (NFA.currentStates this ≫= λ x, Name <$> successors this input x) this).
Proof.
  intros Hne Hin Hcur Hplain. unfold NFA.transition, NFA.isErrorState. rewrite Hin.
  assert (Hlen : Nat.eqb (length (NFA.currentStates this)) 0 = false).
  { destruct (NFA.currentStates this); [congruence | reflexivity]. }
  rewrite Hlen. cbn [negb].
  rewrite (forEach_visit_plain _ _ _ _ Hcur Hplain).
  rewrite app_nil_l, filter_bind_pushed. reflexivity.
Qed.

(** C4, where the code departs from it: for the NFA built from a spec whose
    alphabet has the symbol [toString] and whose transitions declare nothing
    for ([s1], [toString]), the active state [s1] has no entry for the
    symbol, yet [transition('toString')] does not leave the NFA dead with an
    empty active collection: the row of [s1] inherits a function, which is
    not [undefined] and has no [forEach], so the call throws a type error
    and the active collection stays [s1]. *)
Theorem nfa_transition_throws_on_inherited_value :
  NFA.constructor (Some spec_toString) = Ok nfa_toString
  ∧ NFA.getCurrentStates nfa_toString = [Name "s1"]
  ∧ has (NFA.alphabet nfa_toString) (JString "toString") = true
  ∧ lookup2 (NFA.transitions nfa_toString) "s1" "toString" = None
  ∧ NFA.transition (JString "toString") nfa_toString
    = (Throw ETypeError, nfa_toString)
  ∧ NFA.isErrorState (NFA.transition (JString "toString") nfa_toString).2
    = false.
Proof. vm_compute. repeat split. Qed.

(** ** Two-level tables *)

Lemma lookup2_store {V : Type} (table : gmap string (gmap string V))
  (k1 k2 : string) (v : V) (k1' k2' : string) :
  lookup2 (store table k1 k2 v) k1' k2'
  = if decide ((k1, k2) = (k1', k2')) then Some v else lookup2 table k1' k2'.
Proof.
  unfold store, lookup2.
  destruct (decide (k1 = k1')) as [<-|Hne1].
  - rewrite lookup_insert_eq.
    destruct (decide (k2 = k2')) as [<-|Hne2].
    + rewrite lookup_insert_eq, decide_True by reflexivity. reflexivity.
    + rewrite lookup_insert_ne by exact Hne2.
      rewrite decide_False by congruence.
      destruct (table !! k1); [reflexivity | apply lookup_empty].
  - rewrite lookup_insert_ne by exact Hne1.
    rewrite decide_False by congruence. reflexivity.
Qed.

Lemma declared_plain (states alphabet : gset string)
  (x : string * string * string) :
  plain states → plain alphabet → declared states alphabet x →
  inherited x.1.1 = false ∧ inherited x.2 = false.
Proof. intros Hs Ha (H0 & _ & H2). split; [apply Hs, H0 | apply Ha, H2]. Qed.

(** ** The checks shared by the two builders *)

Lemma checkTransition_declared (states alphabet : gset string)
  (x : string * string * string) :
  declared states alphabet x →
  checkTransition states alphabet (triple x) = Ok x.
Proof.
  destruct x as [[x0 x1] x2]. intros (H0 & H1 & H2). simpl in *.
  unfold checkTransition, triple. simpl.
  rewrite !bool_decide_eq_true_2 by assumption. reflexivity.
Qed.

Lemma checkTransition_Ok (states alphabet : gset string) (x : list jsval)
  (y : string * string * string) :
  checkTransition states alphabet x = Ok y →
  x = triple y ∧ declared states alphabet y.
Proof.
  unfold checkTransition.
  destruct x as [|v0 [|v1 [|v2 [|v3 x]]]]; simpl; try discriminate.
  destruct v0 as [| | | |x0|]; simpl; try discriminate.
  destruct v1 as [| | | |x1|]; simpl; try discriminate.
  destruct v2 as [| | | |x2|]; simpl; try discriminate.
  destruct (decide (x0 ∈ states)) as [H0|H0];
    [rewrite (bool_decide_eq_true_2 _ H0)
    |rewrite (bool_decide_eq_false_2 _ H0); discriminate].
  destruct (decide (x1 ∈ states)) as [H1|H1];
    [rewrite (bool_decide_eq_true_2 _ H1)
    |rewrite (bool_decide_eq_false_2 _ H1); discriminate].
  destruct (decide (x2 ∈ alphabet)) as [H2|H2];
    [rewrite (bool_decide_eq_true_2 _ H2)
    |rewrite (bool_decide_eq_false_2 _ H2); discriminate].
  simpl. intros [= <-]. split; [reflexivity|]. repeat split; assumption.
Qed.

#[global] Instance triple_inj : Inj (=) (=) triple.
Proof. intros [[a b] c] [[a' b'] c']. unfold triple. simpl. congruence. Qed.

#[global] Instance Name_inj : Inj (=) (=) Name.
Proof. intros s s'. congruence. Qed.


(** ** The DFA table builder *)

(** On a declared triple whose [from] and symbol are not inherited names the
    callback looks at own entries only. *)
Lemma stepTransitionDFA_plain (states alphabet : gset string)
  (x : string * string * string) (acc : gmap string (gmap string string)) :
  declared states alphabet x →
  inherited x.1.1 = false → inherited x.2 = false →
  stepTransitionDFA states alphabet (triple x) acc
  = match lookup2 acc x.1.1 x.2 with
    | Some _ => Throw (ENonDeterministic x.1.1 x.1.2 x.2)
    | None => Ok (store acc x.1.1 x.2 x.1.2)
    end.
Proof.
  intros Hx H0 H2. unfold stepTransitionDFA.
  rewrite (checkTransition_declared _ _ _ Hx).
  destruct x as [[x0 x1] x2]. simpl in *.
  rewrite (get_plain _ _ H0). unfold lookup2, store.
  destruct (acc !! x0) as [row|]; simpl.
  - rewrite (get_plain _ _ H2). destruct (row !! x2); [reflexivity|].
    rewrite (put_string_plain _ _ _ H2). reflexivity.
  - rewrite (put_string_plain _ _ _ H2). reflexivity.
Qed.

Lemma dfa_table_of_snoc (acc : gmap string (gmap string string))
  (done : list (string * string * string)) (x : string * string * string) :
  dfa_table_of acc done →
  lookup2 acc x.1.1 x.2 = None →
  dfa_table_of (store acc x.1.1 x.2 x.1.2) (done ++ [x]).
Proof.
  intros Hacc Hfree from symbol to.
  rewrite lookup2_store, elem_of_app, list_elem_of_singleton.
  destruct x as [[x0 x1] x2]. simpl in *.
  destruct (decide ((x0, x2) = (from, symbol))) as [[= <- <-]|Hne].
  - split.
    + intros [= <-]. right. reflexivity.
    + intros [Hin|[= <-]]; [|reflexivity].
      apply Hacc in Hin. congruence.
  - rewrite (Hacc from symbol to). split; [tauto|].
    intros [Hin|[= <- <- <-]]; [exact Hin | congruence].
Qed.

Lemma dfa_table_of_empty : dfa_table_of ∅ [].
Proof.
  intros from symbol to. unfold lookup2. rewrite lookup_empty.
  split; [discriminate | intros Hin; inversion Hin].
Qed.

Lemma dfa_table_of_key (table : gmap string (gmap string string))
  (ts : list (string * string * string)) (from symbol : string) :
  dfa_table_of table ts →
  (is_Some (lookup2 table from symbol) ↔ (from, symbol) ∈ from_symbol <$> ts).
Proof.
  intros Htable. rewrite list_elem_of_fmap. split.
  - intros [to Hto]. apply Htable in Hto. exists (from, to, symbol). auto.
  - intros ([[x0 x1] x2] & [= -> ->] & Hin). exists x1. apply Htable, Hin.
Qed.

(** Declared tuples with pairwise distinct (from, symbol) and no inherited
    name are all accepted. *)
Lemma dfa_build_accepts (states alphabet : gset string)
  (ts done : list (string * string * string))
  (acc : gmap string (gmap string string)) :
  plain states → plain alphabet →
  dfa_table_of acc done →
  Forall (declared states alphabet) ts →
  NoDup (from_symbol <$> (done ++ ts)) →
  ∃ table,
    forEach (stepTransitionDFA states alphabet) (triple <$> ts) acc = Ok table
    ∧ dfa_table_of table (done ++ ts).
Proof.
  intros Hps Hpa Hacc Hts. revert done acc Hacc.
  induction Hts as [|x ts Hx _ IH]; intros done acc Hacc Hnodup.
  - exists acc. rewrite app_nil_r. auto.
  - rewrite fmap_cons. cbn [forEach].
    destruct (declared_plain _ _ _ Hps Hpa Hx) as [H0 H2].
    rewrite (stepTransitionDFA_plain _ _ _ _ Hx H0 H2).
    assert (Hfree : lookup2 acc x.1.1 x.2 = None).
    { apply eq_None_not_Some. rewrite (dfa_table_of_key _ _ _ _ Hacc).
      rewrite fmap_app, fmap_cons in Hnodup.
      apply NoDup_app in Hnodup as (_ & Hdisj & _).
      intros Hin. apply (Hdisj _ Hin). left. }
    rewrite Hfree. simpl.
    replace (done ++ x :: ts) with ((done ++ [x]) ++ ts) in *
      by (rewrite <- app_assoc; reflexivity).
    apply IH; [|exact Hnodup].
    apply dfa_table_of_snoc; assumption.
Qed.

(** With no inherited name among the states and the symbols, whatever the
    builder accepts is a list of declared tuples with pairwise distinct
    (from, symbol), and the table holds exactly these. *)
Lemma dfa_build_Ok (states alphabet : gset string) (l : list (list jsval))
  (done : list (string * string * string))
  (acc table : gmap string (gmap string string)) :
  plain states → plain alphabet →
  forEach (stepTransitionDFA states alphabet) l acc = Ok table →
  dfa_table_of acc done →
  NoDup (from_symbol <$> done) →
  ∃ ts, l = triple <$> ts
    ∧ Forall (declared states alphabet) ts
    ∧ NoDup (from_symbol <$> (done ++ ts))
    ∧ dfa_table_of table (done ++ ts).
Proof.
  intros Hps Hpa.
  revert done acc. induction l as [|x l IH]; intros done acc Hrun Hacc Hnodup.
  - injection Hrun as <-. exists []. rewrite app_nil_r. auto.
  - cbn [forEach] in Hrun. apply bind_Ok in Hrun as (acc' & Hstep & Hrun).
    assert (Hchk := Hstep). unfold stepTransitionDFA in Hchk.
    apply bind_Ok in Hchk as (y & Hy & _).
    apply checkTransition_Ok in Hy as [-> Hy].
    destruct (declared_plain _ _ _ Hps Hpa Hy) as [H0 H2].
    rewrite (stepTransitionDFA_plain _ _ _ _ Hy H0 H2) in Hstep.
    destruct (lookup2 acc y.1.1 y.2) eqn:Hfree; [discriminate|].
    injection Hstep as <-.
    destruct (IH (done ++ [y]) _ Hrun) as (ts & -> & Hts & Hnd & Htable).
    + apply dfa_table_of_snoc; assumption.
    + rewrite fmap_app. apply NoDup_app. split; [exact Hnodup|]. split.
      * intros k Hk [->|Hnil]%elem_of_cons; [|inversion Hnil].
        apply (dfa_table_of_key _ _ y.1.1 y.2 Hacc) in Hk as [? Hk].
        congruence.
      * apply NoDup_singleton.
    + rewrite <- app_assoc in Hnd, Htable. exists (y :: ts). auto.
Qed.

(** C5, where the code departs from it: the DFA built from a spec with the
    transitions ([s1], [s2], [a]) and ([s1], [s2], [constructor]), whose
    (from, symbol) pairs differ, is refused as non-deterministic at the
    second tuple although no entry was made for its pair: the row of [s1]
    inherits a function under [constructor], which the test takes for an
    entry.  The NFA builder, which accepts collisions, raises a type error
    on the same tuple. *)
Theorem dfa_builder_rejects_inherited_symbol :
  NoDup (from_symbol <$> [("s1", "s2", "a"); ("s1", "s2", "constructor")])
  ∧ Spec.transitions spec_constructor
    = Some (triple <$> [("s1", "s2", "a"); ("s1", "s2", "constructor")])
  ∧ validateTransitionsDFA spec_constructor {["s1"; "s2"]} {["a"; "constructor"]}
    = Throw (ENonDeterministic "s1" "s2" "constructor")
  ∧ DFA.constructor (Some spec_constructor)
    = Throw (ENonDeterministic "s1" "s2" "constructor")
  ∧ NFA.constructor (Some spec_constructor) = Throw ETypeError.
Proof.
  split; [compute_done|]. vm_compute. repeat split.
Qed.

(** ** The NFA table builder *)

Lemma targets_of_snoc (done : list (string * string * string))
  (x : string * string * string) (from symbol : string) :
  targets_of (done ++ [x]) from symbol
  = targets_of done from symbol
    ++ (if decide (from_symbol x = (from, symbol)) then [x.1.2] else []).
Proof.
  unfold targets_of. rewrite omap_app. f_equal. simpl.
  destruct (decide (from_symbol x = (from, symbol))); reflexivity.
Qed.

Lemma elem_of_targets_of (ts : list (string * string * string))
  (from symbol to : string) :
  to ∈ targets_of ts from symbol ↔ (from, to, symbol) ∈ ts.
Proof.
  unfold targets_of. rewrite list_elem_of_omap. split.
  - intros ([[x0 x1] x2] & Hin & Hx). unfold from_symbol in Hx. simpl in Hx.
    destruct (decide ((x0, x2) = (from, symbol))) as [[= <- <-]|]; [|discriminate].
    injection Hx as <-. exact Hin.
  - intros Hin. exists (from, to, symbol). split; [exact Hin|].
    unfold from_symbol. simpl. rewrite decide_True by reflexivity. reflexivity.
Qed.

(** When the callback returns, the tuple was a declared triple and its
    target went to the end of the own entry of its pair. *)
Lemma stepTransitionNFA_Ok (states alphabet : gset string) (x : list jsval)
  (acc acc' : gmap string (gmap string (list string))) :
  stepTransitionNFA states alphabet x acc = Ok acc' →
  ∃ y, x = triple y ∧ declared states alphabet y
       ∧ acc' = store acc y.1.1 y.2
                  (default [] (lookup2 acc y.1.1 y.2) ++ [y.1.2]).
Proof.
  unfold stepTransitionNFA. intros (y & Hy & Hstep)%bind_Ok.
  apply checkTransition_Ok in Hy as [-> Hy]. exists y.
  destruct y as [[x0 x1] x2]. simpl in *.
  apply bind_Ok in Hstep as (row & Hrow & Hstep).
  split; [reflexivity|]. split; [exact Hy|].
  unfold store, lookup2.
  destruct (get acc x0) as [|row'|] eqn:Hget; [| |discriminate].
  - injection Hrow as <-. apply get_Undefined in Hget as [-> _]. simpl.
    destruct (get ∅ x2) as [|targets|] eqn:Hto; [| |discriminate].
    + injection Hstep as <-. reflexivity.
    + apply get_Own in Hto. rewrite lookup_empty in Hto. discriminate.
  - injection Hrow as <-. apply get_Own in Hget as ->. simpl.
    destruct (get row' x2) as [|targets|] eqn:Hto; [| |discriminate].
    + injection Hstep as <-. apply get_Undefined in Hto as [-> _]. reflexivity.
    + injection Hstep as <-. apply get_Own in Hto as ->. reflexivity.
Qed.

(** On a declared triple whose [from] and symbol are not inherited names the
    callback returns. *)
Lemma stepTransitionNFA_plain (states alphabet : gset string)
  (x : string * string * string) (acc : gmap string (gmap string (list string))) :
  declared states alphabet x →
  inherited x.1.1 = false → inherited x.2 = false →
  stepTransitionNFA states alphabet (triple x) acc
  = Ok (store acc x.1.1 x.2 (default [] (lookup2 acc x.1.1 x.2) ++ [x.1.2])).
Proof.
  intros Hx H0 H2. unfold stepTransitionNFA.
  rewrite (checkTransition_declared _ _ _ Hx).
  destruct x as [[x0 x1] x2]. simpl in *.
  rewrite (get_plain _ _ H0). unfold lookup2, store.
  destruct (acc !! x0) as [row|]; simpl.
  - rewrite (get_plain _ _ H2). destruct (row !! x2); reflexivity.
  - rewrite (get_plain _ _ H2), lookup_empty. reflexivity.
Qed.

Lemma nfa_table_of_empty : nfa_table_of ∅ [].
Proof. intros from symbol. unfold lookup2. rewrite lookup_empty. reflexivity. Qed.

Lemma nfa_table_of_default (table : gmap string (gmap string (list string)))
  (ts : list (string * string * string)) (from symbol : string) :
  nfa_table_of table ts →
  default [] (lookup2 table from symbol) = targets_of ts from symbol.
Proof.
  intros Htable. rewrite (Htable from symbol).
  destruct (targets_of ts from symbol); reflexivity.
Qed.

Lemma nfa_table_of_snoc (acc : gmap string (gmap string (list string)))
  (done : list (string * string * string)) (x : string * string * string) :
  nfa_table_of acc done →
  nfa_table_of
    (store acc x.1.1 x.2 (default [] (lookup2 acc x.1.1 x.2) ++ [x.1.2]))
    (done ++ [x]).
Proof.
  intros Hacc from symbol.
  rewrite lookup2_store, targets_of_snoc.
  change (x.1.1, x.2) with (from_symbol x).
  destruct (decide (from_symbol x = (from, symbol))) as [Hkey|Hne].
  - injection Hkey as <- <-.
    rewrite (nfa_table_of_default _ _ _ _ Hacc).
    destruct (targets_of done x.1.1 x.2); reflexivity.
  - rewrite app_nil_r. apply Hacc.
Qed.

(** The NFA builder accepts every list of declared triples without inherited
    names. *)
Lemma nfa_build_accepts (states alphabet : gset string)
  (ts done : list (string * string * string))
  (acc : gmap string (gmap string (list string))) :
  plain states → plain alphabet →
  nfa_table_of acc done →
  Forall (declared states alphabet) ts →
  ∃ table,
    forEach (stepTransitionNFA states alphabet) (triple <$> ts) acc = Ok table
    ∧ nfa_table_of table (done ++ ts).
Proof.
  intros Hps Hpa Hacc Hts. revert done acc Hacc.
  induction Hts as [|x ts Hx _ IH]; intros done acc Hacc.
  - exists acc. rewrite app_nil_r. auto.
  - rewrite fmap_cons. cbn [forEach].
    destruct (declared_plain _ _ _ Hps Hpa Hx) as [H0 H2].
    rewrite (stepTransitionNFA_plain _ _ _ _ Hx H0 H2). simpl.
    replace (done ++ x :: ts) with ((done ++ [x]) ++ ts)
      by (rewrite <- app_assoc; reflexivity).
    apply IH. apply nfa_table_of_snoc, Hacc.
Qed.

Lemma nfa_build_Ok (states alphabet : gset string) (l : list (list jsval))
  (done : list (string * string * string))
  (acc table : gmap string (gmap string (list string))) :
  forEach (stepTransitionNFA states alphabet) l acc = Ok table →
  nfa_table_of acc done →
  ∃ ts, l = triple <$> ts
    ∧ Forall (declared states alphabet) ts
    ∧ nfa_table_of table (done ++ ts).
Proof.
  revert done acc. induction l as [|x l IH]; intros done acc Hrun Hacc.
  - injection Hrun as <-. exists []. rewrite app_nil_r. auto.
  - cbn [forEach] in Hrun. apply bind_Ok in Hrun as (acc' & Hstep & Hrun).
    apply stepTransitionNFA_Ok in Hstep as (y & -> & Hy & ->).
    destruct (IH (done ++ [y]) _ Hrun) as (ts & -> & Hts & Htable).
    + apply nfa_table_of_snoc, Hacc.
    + rewrite <- app_assoc in Htable. exists (y :: ts). auto.
Qed.

(** ** Reachable instances of the NFA *)

Lemma nfa_transition_table (this : NFA.t) (input : jsval) :
  NFA.transitions (NFA.transition input this).2 = NFA.transitions this.
Proof.
  destruct (nfa_transition_cases this input) as [->|[_ ->]]; reflexivity.
Qed.

(** The table of a reachable NFA is the one the builder made of the spec. *)
Lemma nfa_reachable_table (nfa : Spec.t) (this : NFA.t) :
  NFA.reachable (Some nfa) this →
  ∃ ts, Spec.transitions nfa = Some (triple <$> ts)
        ∧ nfa_table_of (NFA.transitions this) ts.
Proof.
  induction 1 as [this Hnew|this input _ IH].
  - apply nfa_constructor_Ok in Hnew
      as (nfa' & [= <-] & _ & _ & _ & _ & Htable & _).
    unfold validateTransitionsNFA in Htable.
    destruct (Spec.transitions nfa) as [l|]; [|discriminate]. simpl in Htable.
    pose proof (nfa_build_Ok _ _ l [] ∅ _ Htable nfa_table_of_empty)
      as (ts & -> & _ & Hts).
    exists ts. auto.
  - rewrite nfa_transition_table. exact IH.
Qed.

Lemma NoDup_fmap_eq {X Y : Type} (f : X → Y) (l : list X) (x y : X) :
  NoDup (f <$> l) → x ∈ l → y ∈ l → f x = f y → x = y.
Proof.
  induction l as [|z l IH]; intros Hnodup Hx Hy Hxy; [inversion Hx|].
  rewrite fmap_cons in Hnodup. apply NoDup_cons in Hnodup as [Hz Hnodup].
  apply elem_of_cons in Hx as [->|Hx]; apply elem_of_cons in Hy as [->|Hy].
  - reflexivity.
  - exfalso. apply Hz. rewrite Hxy. apply list_elem_of_fmap. eauto.
  - exfalso. apply Hz. rewrite <- Hxy. apply list_elem_of_fmap. eauto.
  - apply IH; assumption.
Qed.

Lemma targets_of_NoDup (ts : list (string * string * string))
  (from symbol : string) :
  NoDup (to_symbol <$> ts) → NoDup (targets_of ts from symbol).
Proof.
  induction ts as [|x ts IH]; intros Hnodup; [constructor|].
  rewrite fmap_cons in Hnodup. apply NoDup_cons in Hnodup as [Hx Hnodup].
  change (targets_of (x :: ts) from symbol)
    with (match (if decide (from_symbol x = (from, symbol))
                 then Some x.1.2 else None) with
          | Some to => to :: targets_of ts from symbol
          | None => targets_of ts from symbol
          end).
  destruct (decide (from_symbol x = (from, symbol))) as [Hkey|_]; [|auto].
  apply NoDup_cons. split; [|auto].
  intros Hin. apply elem_of_targets_of in Hin. apply Hx.
  apply list_elem_of_fmap. exists (from, x.1.2, symbol). split; [|exact Hin].
  injection Hkey as _ <-. reflexivity.
Qed.

Lemma successors_Name (this : NFA.t) (ts : list (string * string * string))
  (a s : string) :
  nfa_table_of (NFA.transitions this) ts →
  successors this (JString a) (Name s) = targets_of ts s a.
Proof. intros Htable. apply (nfa_table_of_default _ _ s a Htable). Qed.

Lemma same_tuples (ts ts' : list (string * string * string)) :
  Some (triple <$> ts) = Some (triple <$> ts') → ts = ts'.
Proof. intros [= Heq]. apply (inj (fmap triple)) in Heq. exact Heq. Qed.

Lemma nfa_reachable_NoDup (nfa : Spec.t) (ts : list (string * string * string))
  (this : NFA.t) :
  Spec.transitions nfa = Some (triple <$> ts) →
  NoDup (to_symbol <$> ts) →
  NFA.reachable (Some nfa) this →
  NoDup (NFA.currentStates this)
  ∧ Forall (λ x, ∃ s, x = Name s) (NFA.currentStates this).
Proof.
  intros Hts Hnodup. induction 1 as [this Hnew|this input Hreach [IHnd IHnames]].
  - apply nfa_constructor_Ok in Hnew as (_ & _ & _ & _ & _ & _ & _ & ->).
    split; [apply NoDup_singleton | repeat constructor; eauto].
  - destruct (nfa_transition_cases this input) as [->|[Hin ->]]; [auto|].
    apply has_true in Hin as (a & -> & _).
    destruct (nfa_reachable_table _ _ Hreach) as (ts' & Hts' & Htable).
    rewrite Hts in Hts'. apply same_tuples in Hts' as <-. simpl.
    rewrite Forall_forall in IHnames. split.
    + apply NoDup_bind; [| |exact IHnd].
      * intros x1 x2 y Hx1 Hx2 Hy1 Hy2.
        destruct (IHnames _ Hx1) as [s1 ->]. destruct (IHnames _ Hx2) as [s2 ->].
        rewrite (successors_Name _ ts) in Hy1, Hy2 by exact Htable.
        apply list_elem_of_fmap in Hy1 as (t1 & -> & Ht1).
        apply list_elem_of_fmap in Hy2 as (t2 & [= <-] & Ht2).
        apply elem_of_targets_of in Ht1, Ht2.
        assert (Heq : (s1, t1, a) = (s2, t1, a))
          by (apply (NoDup_fmap_eq to_symbol ts); auto).
        congruence.
      * intros x Hx. destruct (IHnames _ Hx) as [s ->].
        rewrite (successors_Name _ ts) by exact Htable.
        apply (NoDup_fmap_2 Name), targets_of_NoDup, Hnodup.
    + apply Forall_forall. intros y (x & Hy & _)%list_elem_of_bind.
      apply list_elem_of_fmap in Hy as (to & -> & _). eauto.
Qed.

(** C1, amended: for an NFA built from a spec in which no state is named
    like a property of [Object.prototype] and no two transition tuples have
    both the same target and the same symbol, every array of targets in the
    table is free of duplicates, and so is the active collection after
    construction and after every call of [transition], whether it returns
    or throws. *)
Theorem nfa_active_states_NoDup (nfa : Spec.t)
  (ts : list (string * string * string)) (this : NFA.t) :
  Spec.transitions nfa = Some (triple <$> ts) →
  plain_states nfa →
  NoDup (to_symbol <$> ts) →
  NFA.reachable (Some nfa) this →
  NoDup (NFA.getCurrentStates this)
  ∧ ∀ from symbol targets,
      lookup2 (NFA.transitions this) from symbol = Some targets → NoDup targets.
Proof.
  intros Hts _ Hnodup Hreach. split.
  - apply (nfa_reachable_NoDup nfa ts); assumption.
  - intros from symbol targets Hrow.
    destruct (nfa_reachable_table _ _ Hreach) as (ts' & Hts' & Htable).
    rewrite Hts in Hts'. apply same_tuples in Hts' as <-.
    pose proof (nfa_table_of_default _ _ from symbol Htable) as Hdef.
    rewrite Hrow in Hdef. simpl in Hdef. subst targets.
    apply targets_of_NoDup, Hnodup.
Qed.

(** ** The theorems at work on the scenarios *)

(** Against C1 as stated: the active collection does get duplicates, from a
    tuple declared twice, and, without any repeated tuple, from two active
    states that share a successor. *)
Lemma nfa_active_states_duplicated :
  NFA.constructor (Some spec_twice) = Ok nfa_twice
  ∧ NFA.getCurrentStates (NFA.transition (JString "a") nfa_twice).2
    = [Name "s2"; Name "s2"]
  ∧ ¬ NoDup (NFA.getCurrentStates (NFA.transition (JString "a") nfa_twice).2)
  ∧ NFA.constructor (Some spec_merge) = Ok nfa_merge
  ∧ NFA.getCurrentStates (NFA.run [JString "a"; JString "a"] nfa_merge).2
    = [Name "s2"; Name "s2"]
  ∧ ¬ NoDup (NFA.getCurrentStates (NFA.run [JString "a"; JString "a"] nfa_merge).2).
Proof.
  assert (Hdup : ¬ NoDup [Name "s2"; Name "s2"]).
  { intros [Hin _]%NoDup_cons. apply Hin. left. }
  split; [vm_compute; reflexivity|].
  split; [vm_compute; reflexivity|].
  split; [exact Hdup|].
  split; [vm_compute; reflexivity|].
  split; [vm_compute; reflexivity|].
  exact Hdup.
Qed.

Lemma nfa_active_states_NoDup_witness :
  NoDup (NFA.getCurrentStates nfa_s2_s3)
  ∧ ∀ from symbol targets,
      lookup2 (NFA.transitions nfa_s2_s3) from symbol = Some targets →
      NoDup targets.
Proof.
  apply (nfa_active_states_NoDup spec_nfa
           [("s1", "s2", "a"); ("s1", "s3", "a")] nfa_s2_s3).
  - reflexivity.
  - unfold plain_states. compute_done.
  - compute_done.
  - apply NFA.reachable_transition, NFA.reachable_new.
    vm_compute. reflexivity.
Defined.

Lemma transition_unknown_symbol_throws_witness :
  (has (DFA.alphabet dfa_dead) (JString "c") = false
   ∧ DFA.transition (JString "c") dfa_dead
     = (Throw (ENotInAlphabet (JString "c")), dfa_dead))
  ∧ (has (NFA.alphabet nfa_s1) JUndefined = false
     ∧ NFA.transition JUndefined nfa_s1
       = (Throw (ENotInAlphabet JUndefined), nfa_s1)).
Proof.
  split.
  - split; [vm_compute; reflexivity|].
    apply (proj1 transition_unknown_symbol_throws). vm_compute. reflexivity.
  - split; [reflexivity|].
    apply (proj2 transition_unknown_symbol_throws). reflexivity.
Defined.


Lemma dfa_error_state_absorbing_witness :
  DFA.isErrorState dfa_dead = true
  ∧ DFA.run [JString "a"; JString "b"; JString "a"] dfa_dead = (Ok tt, dfa_dead)
  ∧ DFA.isErrorState
      (DFA.run [JString "a"; JString "b"; JString "a"] dfa_dead).2 = true.
Proof.
  split; [reflexivity|].
  apply (dfa_error_state_absorbing dfa_dead [JString "a"; JString "b"; JString "a"]).
  - reflexivity.
  - repeat constructor.
Defined.

Lemma nfa_dead_configuration_absorbing_witness :
  NFA.getCurrentStates nfa_dead = []
  ∧ NFA.run [JString "a"; JString "b"] nfa_dead = (Ok tt, nfa_dead)
  ∧ NFA.getCurrentStates (NFA.run [JString "a"; JString "b"] nfa_dead).2 = []
  ∧ NFA.isErrorState (NFA.run [JString "a"; JString "b"] nfa_dead).2 = true.
Proof.
  split; [reflexivity|].
  apply (nfa_dead_configuration_absorbing nfa_dead [JString "a"; JString "b"]).
  - reflexivity.
  - repeat constructor.
Defined.


Lemma nfa_accepting_iff_all_final_witness :
  NFA.getCurrentStates nfa_dead = []
  ∧ NFA.isAcceptingState nfa_dead = true
  ∧ NFA.isErrorState nfa_dead = true.
Proof.
  split; [reflexivity|].
  apply (proj2 (nfa_accepting_iff_all_final nfa_dead)). reflexivity.
Defined.

(** * Further properties of the validators, the builders and the engines *)

(** ** More on the error monad *)

Lemma bind_Throw {A B : Type} (m : completion A) (k : A → completion B) (e : error) :
  m ≫= k = Throw e ↔ m = Throw e ∨ ∃ a, m = Ok a ∧ k a = Throw e.
Proof.
  destruct m as [a|e'|]; simpl; split.
  - intros Hk. right. exists a. auto.
  - intros [[=]|(a' & [= <-] & Hk)]. exact Hk.
  - intros [= <-]. left. reflexivity.
  - intros [[= <-]|(a' & [=] & _)]. reflexivity.
  - discriminate.
  - intros [[=]|(a' & [=] & _)].
Qed.

(** ** The three set-building validators *)

Lemma add_name_Ok (notString : jsval → error) (duplicate : string → error)
  (bad : string → bool) (refused : string → error)
  (x : jsval) (acc set : gset string) :
  add_name notString duplicate bad refused x acc = Ok set
  ↔ ∃ s, x = JString s ∧ (s ∉ acc) ∧ bad s = false ∧ set = acc ∪ {[s]}.
Proof.
  unfold add_name. split.
  - destruct x as [| | | |s|]; try discriminate.
    destruct (decide (s ∈ acc)) as [Hin|Hout].
    + rewrite (bool_decide_eq_true_2 _ Hin). discriminate.
    + rewrite (bool_decide_eq_false_2 _ Hout).
      destruct (bad s) eqn:Hbad; [discriminate|].
      intros [= <-]. eauto.
  - intros (s & -> & Hout & Hbad & ->).
    rewrite (bool_decide_eq_false_2 _ Hout), Hbad. reflexivity.
Qed.

Lemma forEach_add_name_Ok (notString : jsval → error)
  (duplicate : string → error) (bad : string → bool) (refused : string → error)
  (l : list jsval) (acc set : gset string) :
  forEach (add_name notString duplicate bad refused) l acc = Ok set
  ↔ ∃ names, l = JString <$> names
      ∧ NoDup names
      ∧ Forall (λ s, (s ∉ acc) ∧ bad s = false) names
      ∧ set = acc ∪ list_to_set names.
Proof.
  revert acc. induction l as [|x l IH]; intros acc; cbn [forEach].
  - split.
    + intros [= <-]. exists [].
      split; [reflexivity|]. split; [constructor|]. split; [constructor|].
      simpl. symmetry. apply union_empty_r_L.
    + intros (names & Hl & _ & _ & ->).
      symmetry in Hl. apply fmap_nil_inv in Hl as ->. simpl.
      f_equal. symmetry. apply union_empty_r_L.
  - rewrite bind_Ok. split.
    + intros (acc' & Hx & Hrest).
      apply add_name_Ok in Hx as (s & -> & Hout & Hbad & ->).
      apply IH in Hrest as (names & -> & Hnodup & Hall & ->).
      exists (s :: names). rewrite Forall_forall in Hall.
      split; [reflexivity|]. split; [|split].
      * apply NoDup_cons. split; [|exact Hnodup].
        intros Hin. apply Hall in Hin as [Hin _]. apply Hin.
        apply elem_of_union_r, elem_of_singleton. reflexivity.
      * constructor; [auto|]. apply Forall_forall. intros s' Hs'.
        apply Hall in Hs' as [Hs' Hok]. split; [|exact Hok].
        intros Hin. apply Hs', elem_of_union_l, Hin.
      * simpl. symmetry. apply (assoc_L (∪)).
    + intros (names & Hl & Hnodup & Hall & ->).
      destruct names as [|s names]; [discriminate|].
      rewrite fmap_cons in Hl. injection Hl as -> ->.
      apply NoDup_cons in Hnodup as [Hs Hnodup].
      apply Forall_cons in Hall as [[Hout Hbad] Hall].
      exists (acc ∪ {[s]}). split.
      * apply add_name_Ok. eauto.
      * apply IH. exists names. split; [reflexivity|]. split; [exact Hnodup|].
        split; [|simpl; apply (assoc_L (∪))].
        rewrite Forall_forall in Hall. apply Forall_forall. intros s' Hs'.
        destruct (Hall _ Hs') as [Hout' Hbad']. split; [|exact Hbad'].
        intros [Hin|Heq]%elem_of_union; [auto|].
        apply elem_of_singleton in Heq as ->. exact (Hs Hs').
Qed.

Lemma forEach_add_name_empty (notString : jsval → error)
  (duplicate : string → error) (bad : string → bool) (refused : string → error)
  (l : list jsval) (set : gset string) :
  forEach (add_name notString duplicate bad refused) l ∅ = Ok set
  ↔ ∃ names, l = JString <$> names
      ∧ NoDup names
      ∧ Forall (λ s, bad s = false) names
      ∧ set = list_to_set names.
Proof.
  rewrite forEach_add_name_Ok. split.
  - intros (names & Hl & Hnodup & Hall & ->). exists names.
    split; [exact Hl|]. split; [exact Hnodup|]. split.
    + eapply Forall_impl; [exact Hall|]. intros s [_ Hs]. exact Hs.
    + apply union_empty_l_L.
  - intros (names & Hl & Hnodup & Hall & ->). exists names.
    split; [exact Hl|]. split; [exact Hnodup|]. split.
    + eapply Forall_impl; [exact Hall|]. intros s Hs.
      split; [apply not_elem_of_empty | exact Hs].
    + symmetry. apply union_empty_l_L.
Qed.

(** X1: [validateAlphabet] returns a set exactly when the alphabet is an array of
    pairwise distinct strings none of which trims to the empty string; the
    set then holds these strings and nothing else.  An empty array is
    accepted. *)
Theorem validateAlphabet_Ok_iff (dfa : Spec.t) (alphabet : gset string) :
  validateAlphabet dfa = Ok alphabet
  ↔ ∃ names : list string,
      Spec.alphabet dfa = Some (JString <$> names)
      ∧ NoDup names
      ∧ Forall (λ s, trims_to_empty s = false) names
      ∧ alphabet = list_to_set names.
Proof.
  unfold validateAlphabet.
  destruct (Spec.alphabet dfa) as [l|]; simpl.
  - change (forEach (add_name EAlphabetNotString EAlphabetDuplicate
                       trims_to_empty (λ _, EAlphabetWhitespace)) l ∅
            = Ok alphabet ↔
            ∃ names : list string,
              Some l = Some (JString <$> names)
              ∧ NoDup names
              ∧ Forall (λ s, trims_to_empty s = false) names
              ∧ alphabet = list_to_set names).
    rewrite forEach_add_name_empty. split.
    + intros (names & -> & H). eauto.
    + intros (names & [= ->] & H). eauto.
  - split; [discriminate | intros (names & [=] & _)].
Qed.

(** X2: [validateStates] returns a set exactly when the states are an array of
    pairwise distinct strings none of which trims to the empty string; the
    set then holds these strings and nothing else. *)
Theorem validateStates_Ok_iff (dfa : Spec.t) (states : gset string) :
  validateStates dfa = Ok states
  ↔ ∃ names : list string,
      Spec.states dfa = Some (JString <$> names)
      ∧ NoDup names
      ∧ Forall (λ s, trims_to_empty s = false) names
      ∧ states = list_to_set names.
Proof.
  unfold validateStates.
  destruct (Spec.states dfa) as [l|]; simpl.
  - change (forEach (add_name EStatesNotString EStatesDuplicate
                       trims_to_empty (λ _, EStatesWhitespace)) l ∅
            = Ok states ↔
            ∃ names : list string,
              Some l = Some (JString <$> names)
              ∧ NoDup names
              ∧ Forall (λ s, trims_to_empty s = false) names
              ∧ states = list_to_set names).
    rewrite forEach_add_name_empty. split.
    + intros (names & -> & H). eauto.
    + intros (names & [= ->] & H). eauto.
  - split; [discriminate | intros (names & [=] & _)].
Qed.

(** X3: [validateFinalStates] returns a set exactly when the final states are an
    array of pairwise distinct strings that are all members of [states]; the
    set then holds these strings and nothing else.  No final state at all is
    accepted, and a blank name is not looked at here. *)
Theorem validateFinalStates_Ok_iff (dfa : Spec.t) (states finalStates : gset string) :
  validateFinalStates dfa states = Ok finalStates
  ↔ ∃ names : list string,
      Spec.finalStates dfa = Some (JString <$> names)
      ∧ NoDup names
      ∧ Forall (λ s, s ∈ states) names
      ∧ finalStates = list_to_set names.
Proof.
  unfold validateFinalStates.
  destruct (Spec.finalStates dfa) as [l|]; simpl.
  - change (forEach (add_name EFinalStatesNotString EFinalStatesDuplicate
                       (λ s, negb (bool_decide (s ∈ states)))
                       EFinalStatesUndefinedState) l ∅
            = Ok finalStates ↔
            ∃ names : list string,
              Some l = Some (JString <$> names)
              ∧ NoDup names
              ∧ Forall (λ s, s ∈ states) names
              ∧ finalStates = list_to_set names).
    rewrite forEach_add_name_empty.
    assert (Hbad : ∀ names : list string,
               Forall (λ s, negb (bool_decide (s ∈ states)) = false) names
               ↔ Forall (λ s, s ∈ states) names).
    { intros names. apply Forall_iff. intros s.
      rewrite negb_false_iff, bool_decide_eq_true. reflexivity. }
    split.
    + intros (names & -> & Hnodup & Hall & ->). apply Hbad in Hall. eauto.
    + intros (names & [= ->] & Hnodup & Hall & ->). apply Hbad in Hall. eauto.
  - split; [discriminate | intros (names & [=] & _)].
Qed.


(** ** Malformed transition tuples *)





(** ** What the builders accept *)

(** X7: when no state and no symbol is named like a property of
    [Object.prototype], the DFA builder returns a table exactly when the
    transitions are an array of triples of strings with declared states and
    symbol, no two of which have the same (from, symbol).  No transition at
    all is accepted. *)
Theorem validateTransitionsDFA_accepts_iff (dfa : Spec.t)
  (states alphabet : gset string) :
  plain states → plain alphabet →
  (∃ table, validateTransitionsDFA dfa states alphabet = Ok table)
  ↔ ∃ ts : list (string * string * string),
      Spec.transitions dfa = Some (triple <$> ts)
      ∧ Forall (declared states alphabet) ts
      ∧ NoDup (from_symbol <$> ts).
Proof.
  intros Hps Hpa. unfold validateTransitionsDFA. split.
  - intros [table Hrun].
    destruct (Spec.transitions dfa) as [l|]; [|discriminate]. simpl in Hrun.
    pose proof (dfa_build_Ok states alphabet l [] ∅ table Hps Hpa Hrun
                  dfa_table_of_empty (NoDup_nil_2))
      as (ts & -> & Hdecl & Hnodup & _).
    exists ts. auto.
  - intros (ts & -> & Hdecl & Hnodup). simpl.
    pose proof (dfa_build_accepts states alphabet ts [] ∅ Hps Hpa
                  dfa_table_of_empty Hdecl Hnodup) as (table & Hrun & _).
    exists table. exact Hrun.
Qed.

(** X8: when no state and no symbol is named like a property of
    [Object.prototype], the NFA builder returns a table exactly when the
    transitions are an array
    of triples of strings with declared states and symbol.  The table then
    has an entry for (from, symbol) exactly when some tuple declares the
    pair, and the entry is the array of the targets of these tuples in
    declaration order, repetitions included; no entry is an empty array. *)
Theorem validateTransitionsNFA_Ok_iff (nfa : Spec.t)
  (states alphabet : gset string) :
  plain states → plain alphabet →
  ((∃ table, validateTransitionsNFA nfa states alphabet = Ok table)
   ↔ ∃ ts : list (string * string * string),
       Spec.transitions nfa = Some (triple <$> ts)
       ∧ Forall (declared states alphabet) ts)
  ∧ ∀ table ts,
      validateTransitionsNFA nfa states alphabet = Ok table →
      Spec.transitions nfa = Some (triple <$> ts) →
      ∀ from symbol targets,
        lookup2 table from symbol = Some targets
        ↔ targets ≠ [] ∧ targets = targets_of ts from symbol.
Proof.
  intros Hps Hpa. unfold validateTransitionsNFA. split; [split|].
  - intros [table Hrun].
    destruct (Spec.transitions nfa) as [l|]; [|discriminate]. simpl in Hrun.
    pose proof (nfa_build_Ok states alphabet l [] ∅ table Hrun
                  nfa_table_of_empty) as (ts & -> & Hdecl & _).
    exists ts. auto.
  - intros (ts & -> & Hdecl). simpl.
    pose proof (nfa_build_accepts states alphabet ts [] ∅ Hps Hpa
                  nfa_table_of_empty Hdecl) as (table & Hrun & _).
    exists table. exact Hrun.
  - intros table ts Hrun Hts from symbol targets.
    rewrite Hts in Hrun. simpl in Hrun.
    pose proof (nfa_build_Ok states alphabet _ [] ∅ table Hrun
                  nfa_table_of_empty) as (ts' & Heq & _ & Htable).
    apply (inj (fmap triple)) in Heq. subst ts'. simpl in Htable.
    rewrite (Htable from symbol).
    destruct (targets_of ts from symbol) as [|to l]; split.
    + discriminate.
    + intros [Hne ->]. congruence.
    + intros [= <-]. split; [discriminate | reflexivity].
    + intros [_ ->]. reflexivity.
Qed.


(** X21: when no state and no symbol is named like a property of
    [Object.prototype], the DFA table builder takes the tuples in declaration
    order.  When the tuples before some tuple [x] are declared triples with
    pairwise distinct (from, symbol), and [x] is a declared triple whose
    (from, symbol) one of them already has, the builder throws the
    non-determinism error for [x], whatever follows [x].  And when the
    builder returns a table, the tuples were triples with pairwise distinct
    (from, symbol) and the table maps each pair to the target of its one
    tuple: nothing was overwritten. *)
Theorem dfa_builder_rejects_first_conflict
  (dfa : Spec.t) (states alphabet : gset string) :
  plain states → plain alphabet →
  (∀ (pre : list (string * string * string)) (x : string * string * string)
     (post : list (list jsval)),
      Spec.transitions dfa = Some ((triple <$> pre) ++ triple x :: post) →
      Forall (declared states alphabet) pre →
      NoDup (from_symbol <$> pre) →
      declared states alphabet x →
      from_symbol x ∈ from_symbol <$> pre →
      validateTransitionsDFA dfa states alphabet
      = Throw (ENonDeterministic x.1.1 x.1.2 x.2))
  ∧ (∀ table : gmap string (gmap string string),
      validateTransitionsDFA dfa states alphabet = Ok table →
      ∃ ts : list (string * string * string),
        Spec.transitions dfa = Some (triple <$> ts)
        ∧ NoDup (from_symbol <$> ts)
        ∧ ∀ from symbol to,
            lookup2 table from symbol = Some to ↔ (from, to, symbol) ∈ ts).
Proof.
  intros Hps Hpa. unfold validateTransitionsDFA. split.
  - intros pre x post -> Hpre Hnodup Hx Hkey. simpl.
    rewrite forEach_app.
    pose proof (dfa_build_accepts states alphabet pre [] ∅ Hps Hpa
                  dfa_table_of_empty Hpre Hnodup) as (table & Hrun & Htable).
    rewrite Hrun. simpl in Htable |- *.
    destruct (declared_plain _ _ _ Hps Hpa Hx) as [H0 H2].
    rewrite (stepTransitionDFA_plain _ _ _ _ Hx H0 H2).
    destruct x as [[x0 x1] x2].
    destruct (proj2 (dfa_table_of_key _ _ x0 x2 Htable) Hkey) as [to Hto].
    simpl. rewrite Hto. reflexivity.
  - intros table Hrun.
    destruct (Spec.transitions dfa) as [l|]; [|discriminate]. simpl in Hrun.
    pose proof (dfa_build_Ok states alphabet l [] ∅ table Hps Hpa Hrun
                  dfa_table_of_empty (NoDup_nil_2))
      as (ts & -> & _ & Hnodup & Htable).
    exists ts. auto.
Qed.

(** ** What instances hold *)

Lemma dfa_transition_static (this : DFA.t) (input : jsval) :
  dfa_static (DFA.transition input this).2 = dfa_static this.
Proof.
  unfold DFA.transition.
  destruct (negb (has _ input)); [reflexivity|].
  destruct (DFA.isErrorState this); [reflexivity|].
  destruct (state_key _) as [key|]; [|reflexivity].
  destruct (get _ key) as [|row|]; [reflexivity| |reflexivity].
  destruct (get row _); reflexivity.
Qed.

Lemma nfa_transition_static (this : NFA.t) (input : jsval) :
  nfa_static (NFA.transition input this).2 = nfa_static this.
Proof.
  destruct (nfa_transition_cases this input) as [->|[_ ->]]; reflexivity.
Qed.

Lemma dfa_closed_static (this this' : DFA.t) :
  dfa_static this' = dfa_static this → dfa_closed this → dfa_closed this'.
Proof.
  unfold dfa_static, dfa_closed. intros [= -> -> -> -> ->]. tauto.
Qed.

Lemma nfa_closed_static (this this' : NFA.t) :
  nfa_static this' = nfa_static this → nfa_closed this → nfa_closed this'.
Proof.
  unfold nfa_static, nfa_closed. intros [= -> -> -> -> ->]. tauto.
Qed.

Lemma validateFinalStates_subset (dfa : Spec.t) (states finalStates : gset string) :
  validateFinalStates dfa states = Ok finalStates → finalStates ⊆ states.
Proof.
  unfold validateFinalStates.
  destruct (Spec.finalStates dfa) as [l|]; [|discriminate]. simpl.
  change (forEach (add_name EFinalStatesNotString EFinalStatesDuplicate
                     (λ s, negb (bool_decide (s ∈ states)))
                     EFinalStatesUndefinedState) l ∅
          = Ok finalStates → finalStates ⊆ states).
  intros (names & _ & _ & Hall & ->)%forEach_add_name_empty.
  intros s Hs%elem_of_list_to_set. rewrite Forall_forall in Hall.
  apply Hall in Hs. apply negb_false_iff, bool_decide_eq_true in Hs. exact Hs.
Qed.

(** The validated states and alphabet of a spec without inherited names
    have none. *)
Lemma validateStates_plain (dfa : Spec.t) (states : gset string) :
  plain_states dfa → validateStates dfa = Ok states → plain states.
Proof.
  unfold plain_states, validateStates. intros Hplain.
  destruct (Spec.states dfa) as [l|]; [|discriminate]. simpl in *.
  change (forEach (add_name EStatesNotString EStatesDuplicate
                     trims_to_empty (λ _, EStatesWhitespace)) l ∅
          = Ok states → plain states).
  intros (names & -> & _ & _ & ->)%forEach_add_name_empty.
  intros k Hk%elem_of_list_to_set. rewrite Forall_forall in Hplain.
  assert (Hv : plain_value (JString k) = true).
  { apply Hplain, list_elem_of_fmap. eauto. }
  simpl in Hv. apply negb_true_iff in Hv. exact Hv.
Qed.

Lemma validateAlphabet_plain (dfa : Spec.t) (alphabet : gset string) :
  plain_alphabet dfa → validateAlphabet dfa = Ok alphabet → plain alphabet.
Proof.
  unfold plain_alphabet, validateAlphabet. intros Hplain.
  destruct (Spec.alphabet dfa) as [l|]; [|discriminate]. simpl in *.
  change (forEach (add_name EAlphabetNotString EAlphabetDuplicate
                     trims_to_empty (λ _, EAlphabetWhitespace)) l ∅
          = Ok alphabet → plain alphabet).
  intros (names & -> & _ & _ & ->)%forEach_add_name_empty.
  intros k Hk%elem_of_list_to_set. rewrite Forall_forall in Hplain.
  assert (Hv : plain_value (JString k) = true).
  { apply Hplain, list_elem_of_fmap. eauto. }
  simpl in Hv. apply negb_true_iff in Hv. exact Hv.
Qed.

Lemma dfa_constructor_plain (dfa : Spec.t) (this : DFA.t) :
  plain_spec dfa → DFA.constructor (Some dfa) = Ok this →
  plain (DFA.states this) ∧ plain (DFA.alphabet this).
Proof.
  intros [Hps Hpa] Hnew. apply dfa_constructor_Ok in Hnew
    as (dfa' & [= <-] & HA & HS & _).
  split; [eapply validateStates_plain | eapply validateAlphabet_plain];
    eassumption.
Qed.

Lemma nfa_constructor_plain_states (nfa : Spec.t) (this : NFA.t) :
  plain_states nfa → NFA.constructor (Some nfa) = Ok this →
  plain (NFA.states this).
Proof.
  intros Hps Hnew. apply nfa_constructor_Ok in Hnew
    as (nfa' & [= <-] & _ & HS & _).
  eapply validateStates_plain; eassumption.
Qed.

Lemma nfa_constructor_plain_alphabet (nfa : Spec.t) (this : NFA.t) :
  plain_alphabet nfa → NFA.constructor (Some nfa) = Ok this →
  plain (NFA.alphabet this).
Proof.
  intros Hpa Hnew. apply nfa_constructor_Ok in Hnew
    as (nfa' & [= <-] & HA & _).
  eapply validateAlphabet_plain; eassumption.
Qed.

Lemma dfa_constructor_table (dfa : Spec.t) (this : DFA.t) :
  plain_spec dfa → DFA.constructor (Some dfa) = Ok this →
  ∃ ts, Spec.transitions dfa = Some (triple <$> ts)
        ∧ Forall (declared (DFA.states this) (DFA.alphabet this)) ts
        ∧ NoDup (from_symbol <$> ts)
        ∧ dfa_table_of (DFA.transitions this) ts.
Proof.
  intros Hplain Hnew.
  destruct (dfa_constructor_plain _ _ Hplain Hnew) as [Hps Hpa].
  apply dfa_constructor_Ok in Hnew
    as (dfa' & [= <-] & _ & _ & _ & _ & Htable & _).
  unfold validateTransitionsDFA in Htable.
  destruct (Spec.transitions dfa) as [l|]; [|discriminate]. simpl in Htable.
  pose proof (dfa_build_Ok _ _ l [] ∅ _ Hps Hpa Htable dfa_table_of_empty
                NoDup_nil_2) as (ts & -> & Hdecl & Hnodup & Hts).
  exists ts. auto.
Qed.

Lemma dfa_constructor_closed (dfa : Spec.t) (this : DFA.t) :
  plain_spec dfa → DFA.constructor (Some dfa) = Ok this → dfa_closed this.
Proof.
  intros Hplain Hnew.
  destruct (dfa_constructor_table _ _ Hplain Hnew) as (ts & _ & Hdecl & _ & Hrep).
  apply dfa_constructor_Ok in Hnew
    as (dfa' & _ & _ & _ & Hinit & Hfinal & _).
  split; [|split].
  - apply validateInitialState_Ok in Hinit as [_ Hinit]. exact Hinit.
  - eapply validateFinalStates_subset, Hfinal.
  - intros from symbol to Hrow. apply Hrep in Hrow.
    rewrite Forall_forall in Hdecl. apply (Hdecl _ Hrow).
Qed.

Lemma nfa_constructor_closed (arg : option Spec.t) (this : NFA.t) :
  NFA.constructor arg = Ok this → nfa_closed this.
Proof.
  intros Hnew. apply nfa_constructor_Ok in Hnew
    as (nfa & _ & _ & _ & Hinit & Hfinal & Htable & _).
  split; [|split].
  - apply validateInitialState_Ok in Hinit as [_ Hinit]. exact Hinit.
  - eapply validateFinalStates_subset, Hfinal.
  - unfold validateTransitionsNFA in Htable.
    destruct (Spec.transitions nfa) as [l|]; [|discriminate]. simpl in Htable.
    pose proof (nfa_build_Ok _ _ l [] ∅ _ Htable nfa_table_of_empty)
      as (ts & _ & Hdecl & Hrep).
    intros from symbol targets Hrow. rewrite (Hrep from symbol) in Hrow.
    simpl in Hrow. rewrite Forall_forall in Hdecl.
    assert (Hmem : ∀ to, to ∈ targets → declared (NFA.states this)
                                          (NFA.alphabet this) (from, to, symbol)).
    { intros to Hto. apply Hdecl, elem_of_targets_of.
      destruct (targets_of ts from symbol); [discriminate|].
      injection Hrow as <-. exact Hto. }
    destruct targets as [|to targets].
    { destruct (targets_of ts from symbol); discriminate. }
    split; [discriminate|].
    destruct (Hmem to) as (Hfrom & _ & Hsym); [left|].
    split; [exact Hfrom|]. split; [exact Hsym|].
    intros to' Hto'. apply (Hmem to' Hto').
Qed.

(** What a reachable DFA keeps from its construction. *)
Lemma dfa_reachable_static (dfa : Spec.t) (this : DFA.t) :
  DFA.reachable (Some dfa) this →
  ∃ this0, DFA.constructor (Some dfa) = Ok this0
           ∧ dfa_static this = dfa_static this0.
Proof.
  induction 1 as [this Hnew|this input _ (this0 & Hnew & IH)].
  - eauto.
  - exists this0. split; [exact Hnew|].
    rewrite dfa_transition_static. exact IH.
Qed.

Lemma nfa_reachable_static (nfa : Spec.t) (this : NFA.t) :
  NFA.reachable (Some nfa) this →
  ∃ this0, NFA.constructor (Some nfa) = Ok this0
           ∧ nfa_static this = nfa_static this0.
Proof.
  induction 1 as [this Hnew|this input _ (this0 & Hnew & IH)].
  - eauto.
  - exists this0. split; [exact Hnew|].
    rewrite nfa_transition_static. exact IH.
Qed.

Lemma dfa_reachable_closed (dfa : Spec.t) (this : DFA.t) :
  plain_spec dfa → DFA.reachable (Some dfa) this →
  dfa_closed this ∧ plain (DFA.states this) ∧ plain (DFA.alphabet this).
Proof.
  intros Hplain (this0 & Hnew & Hstatic)%dfa_reachable_static.
  split; [eapply dfa_closed_static; [exact Hstatic|];
          eapply dfa_constructor_closed; eassumption|].
  destruct (dfa_constructor_plain _ _ Hplain Hnew) as [Hps Hpa].
  unfold dfa_static in Hstatic. injection Hstatic as -> -> _ _ _. auto.
Qed.

Lemma nfa_reachable_closed (nfa : Spec.t) (this : NFA.t) :
  NFA.reachable (Some nfa) this → nfa_closed this.
Proof.
  intros (this0 & Hnew & Hstatic)%nfa_reachable_static.
  eapply nfa_closed_static; [exact Hstatic|].
  eapply nfa_constructor_closed, Hnew.
Qed.

Lemma dfa_reachable_table (dfa : Spec.t) (this : DFA.t) :
  plain_spec dfa → DFA.reachable (Some dfa) this →
  ∃ ts, Spec.transitions dfa = Some (triple <$> ts)
        ∧ NoDup (from_symbol <$> ts)
        ∧ dfa_table_of (DFA.transitions this) ts.
Proof.
  intros Hplain (this0 & Hnew & Hstatic)%dfa_reachable_static.
  destruct (dfa_constructor_table _ _ Hplain Hnew) as (ts & Hts & _ & Hnd & Hrep).
  unfold dfa_static in Hstatic. injection Hstatic as _ _ _ _ ->.
  exists ts. auto.
Qed.


(** ** Steps without inherited names *)

Lemma dfa_transition_plain (this : DFA.t) (s a : string) :
  DFA.isErrorState this = false →
  DFA.currentState this = Name s →
  a ∈ DFA.alphabet this →
  inherited s = false → inherited a = false →
  DFA.transition (JString a) this
  = (Ok tt,
     match lookup2 (DFA.transitions this) s a with
     | Some to => DFA.set_currentState (Name to) this
     | None => DFA.set_isInErrorState true (DFA.set_currentState ErrorState this)
     end).
Proof.
  intros Herr Hcur Ha Hs Hplain. unfold DFA.transition. simpl.
  rewrite (bool_decide_eq_true_2 _ Ha), Herr, Hcur. simpl.
  rewrite (get_plain _ _ Hs). unfold lookup2.
  destruct (DFA.transitions this !! s) as [row|]; [|reflexivity].
  rewrite (get_plain _ _ Hplain). destruct (row !! a); reflexivity.
Qed.

(** X19: a DFA that is not in the error state, whose current state is a name
    that [Object.prototype] does not hold, given a symbol of the alphabet
    that [Object.prototype] does not hold either, returns normally; when the
    table has no entry for the current state and the symbol the instance is
    in the error state afterwards, and otherwise its current state is the
    target the table maps the pair to. *)
Theorem dfa_transition_follows_table (this : DFA.t) (s : string) (input : jsval) :
  DFA.isErrorState this = false →
  DFA.getCurrentState this = Name s →
  has (DFA.alphabet this) input = true →
  inherited s = false → inherited (property_key input) = false →
  ∃ this',
    DFA.transition input this = (Ok tt, this') ∧
    match lookup2 (DFA.transitions this) s (property_key input) with
    | None =>
        DFA.isErrorState this' = true ∧ DFA.getCurrentState this' = ErrorState
    | Some to =>
        DFA.isErrorState this' = false ∧ DFA.getCurrentState this' = Name to
    end.
Proof.
  intros Herr Hcur Hin Hs Hplain.
  apply has_true in Hin as (a & -> & Ha). simpl in *.
  rewrite (dfa_transition_plain this s a Herr Hcur Ha Hs Hplain).
  eexists. split; [reflexivity|].
  destruct (lookup2 _ _ _) as [to|]; simpl.
  - split; [exact Herr | reflexivity].
  - split; reflexivity.
Qed.

(** X20: an NFA whose active collection is not empty and made of names that
    [Object.prototype] does not hold, given a symbol of the alphabet that
    [Object.prototype] does not hold either, returns normally with a new
    active collection made of the table's entries for (s, symbol) over the
    active s: its members are exactly the members of these entries (their
    union), an active s without an entry adds nothing, and the NFA is dead
    afterwards exactly when every active s has no target for the symbol. *)
Theorem nfa_transition_is_union (this : NFA.t) (input : jsval) :
  NFA.getCurrentStates this ≠ [] →
  has (NFA.alphabet this) input = true →
  Forall (λ x, ∃ s, x = Name s ∧ inherited s = false)
    (NFA.getCurrentStates this) →
  inherited (property_key input) = false →
  ∃ this',
    NFA.transition input this = (Ok tt, this')
    ∧ NFA.getCurrentStates this'
      = (NFA.getCurrentStates this ≫= λ x, Name <$> successors this input x)
    ∧ (∀ v, v ∈ NFA.getCurrentStates this' ↔
         ∃ s targets to,
           Name s ∈ NFA.getCurrentStates this
           ∧ lookup2 (NFA.transitions this) s (property_key input)
             = Some targets
           ∧ to ∈ targets ∧ v = Name to)
    ∧ (NFA.isErrorState this' = true ↔
         ∀ x, x ∈ NFA.getCurrentStates this → successors this input x = []).
Proof.
  intros Hne Hin Hcur Hplain. eexists. split.
  { apply nfa_transition_alive; try assumption.
    eapply Forall_impl; [exact Hcur|]. intros x (s & -> & Hs). eauto. }
  unfold NFA.getCurrentStates, NFA.isErrorState in *. simpl.
  rewrite Forall_forall in Hcur.
  split; [reflexivity|]. split.
  - intros v. rewrite list_elem_of_bind. split.
    + intros (x & Hv & Hx). apply list_elem_of_fmap in Hv as (to & -> & Hto).
      destruct (Hcur _ Hx) as (s & -> & _).
      unfold successors in Hto. simpl in Hto.
      destruct (lookup2 _ _ _) as [targets|] eqn:Hrow; simpl in Hto.
      * exists s, targets, to. auto.
      * inversion Hto.
    + intros (s & targets & to & Hx & Hrow & Hto & ->).
      exists (Name s). split; [|exact Hx].
      apply list_elem_of_fmap. exists to. split; [reflexivity|].
      unfold successors. simpl. rewrite Hrow. exact Hto.
  - rewrite Nat.eqb_eq, length_zero_iff_nil. split.
    + intros Hnil x Hx.
      destruct (successors this input x) as [|to l] eqn:Hsucc; [reflexivity|].
      assert (Hel : Name to ∈ NFA.currentStates this
                              ≫= λ x, Name <$> successors this input x).
      { apply list_elem_of_bind. exists x. split; [|exact Hx].
        rewrite Hsucc. left. }
      rewrite Hnil in Hel. inversion Hel.
    + intros Hall. clear Hne Hcur.
      induction (NFA.currentStates this) as [|x l IH]; [reflexivity|].
      rewrite bind_cons, Hall by left. simpl. apply IH.
      intros y Hy. apply Hall. right. exact Hy.
Qed.

(** ** Reachable instances of specs without inherited names *)

Lemma dfa_reachable_runtime (dfa : Spec.t) (this : DFA.t) :
  plain_spec dfa → DFA.reachable (Some dfa) this →
  (DFA.isInErrorState this = false
   ∧ ∃ s, DFA.currentState this = Name s ∧ s ∈ DFA.states this)
  ∨ (DFA.isInErrorState this = true ∧ DFA.currentState this = ErrorState).
Proof.
  intros Hplain Hreach.
  induction Hreach as [this Hnew|this input Hreach IH].
  - pose proof (dfa_constructor_closed _ _ Hplain Hnew) as (Hinit & _).
    apply dfa_constructor_Ok in Hnew as (_ & _ & _ & _ & _ & _ & _ & -> & ->).
    left. eauto.
  - destruct (dfa_reachable_closed _ _ Hplain Hreach)
      as ((_ & _ & Htable) & Hps & Hpa).
    destruct (has (DFA.alphabet this) input) eqn:Hin;
      [|unfold DFA.transition; rewrite Hin; exact IH].
    destruct IH as [[Hflag (s & Hcur & Hs)]|[Hflag Hcur]].
    + apply has_true in Hin as (a & -> & Ha).
      rewrite (dfa_transition_plain this s a Hflag Hcur Ha (Hps _ Hs) (Hpa _ Ha)).
      destruct (lookup2 _ s a) as [to|] eqn:Hrow; simpl.
      * left. split; [exact Hflag|]. exists to. split; [reflexivity|].
        apply Htable in Hrow. tauto.
      * right. auto.
    + unfold DFA.transition, DFA.isErrorState. rewrite Hin, Hflag. right. auto.
Qed.

(** X13: for a spec in which no state and no symbol is named like a property
    of [Object.prototype], a DFA reached by construction and calls of
    [transition] holds declared names only: its initial state and final
    states are states, its table maps states and symbols of the alphabet to
    states, and it is either not in the error state with a declared state as
    current state, or in the error state with an [ErrorState] object as
    current state. *)
Theorem dfa_reachable_invariant (dfa : Spec.t) (this : DFA.t) :
  plain_spec dfa →
  DFA.reachable (Some dfa) this →
  dfa_closed this
  ∧ ((DFA.isErrorState this = false
      ∧ ∃ s, DFA.getCurrentState this = Name s ∧ s ∈ DFA.states this)
     ∨ (DFA.isErrorState this = true
        ∧ DFA.getCurrentState this = ErrorState)).
Proof.
  intros Hplain Hreach. split.
  - apply (dfa_reachable_closed _ _ Hplain Hreach).
  - apply (dfa_reachable_runtime _ _ Hplain Hreach).
Qed.

Lemma nfa_reachable_runtime (nfa : option Spec.t) (this : NFA.t) :
  NFA.reachable nfa this →
  ∀ x, x ∈ NFA.currentStates this → ∃ s, x = Name s ∧ s ∈ NFA.states this.
Proof.
  induction 1 as [this Hnew|this input Hreach IH].
  - pose proof (nfa_constructor_closed _ _ Hnew) as (Hinit & _).
    apply nfa_constructor_Ok in Hnew as (_ & _ & _ & _ & _ & _ & _ & ->).
    intros x ->%list_elem_of_singleton. eauto.
  - assert (Hclosed : nfa_closed this).
    { destruct nfa as [nfa|].
      - apply (nfa_reachable_closed _ _ Hreach).
      - clear IH. induction Hreach as [this Hnew|this input' _ IH'].
        + discriminate Hnew.
        + eapply nfa_closed_static; [apply nfa_transition_static | exact IH']. }
    destruct Hclosed as (_ & _ & Htable).
    destruct (nfa_transition_cases this input) as [->|[_ ->]]; [exact IH|].
    simpl. intros y (x & Hy & Hx)%list_elem_of_bind.
    apply list_elem_of_fmap in Hy as (to & -> & Hto).
    exists to. split; [reflexivity|].
    unfold successors in Hto. destruct (state_key x) as [key|]; [|inversion Hto].
    destruct (lookup2 _ _ _) as [targets|] eqn:Hrow; simpl in Hto.
    + apply Htable in Hrow as (_ & _ & _ & Hmem). apply Hmem, Hto.
    + inversion Hto.
Qed.

(** X14: for a spec in which no state is named like a property of
    [Object.prototype], an NFA reached by construction and calls of
    [transition] holds declared names only: its initial state and final
    states are states, every entry of its table is a non-empty array of
    states filed under a state and a symbol of the alphabet, and every active
    value is a declared state (never an [ErrorState] object). *)
Theorem nfa_reachable_invariant (nfa : Spec.t) (this : NFA.t) :
  plain_states nfa →
  NFA.reachable (Some nfa) this →
  nfa_closed this
  ∧ ∀ x, x ∈ NFA.getCurrentStates this →
         ∃ s, x = Name s ∧ s ∈ NFA.states this.
Proof.
  intros _ Hreach. split.
  - apply (nfa_reachable_closed _ _ Hreach).
  - apply (nfa_reachable_runtime _ _ Hreach).
Qed.

(** ** Steps read off the spec *)

Lemma targets_of_fresh (ts : list (string * string * string)) (from symbol : string) :
  (from, symbol) ∉ from_symbol <$> ts → targets_of ts from symbol = [].
Proof.
  intros Hfresh.
  destruct (targets_of ts from symbol) as [|to l] eqn:Htargets; [reflexivity|].
  exfalso. apply Hfresh. apply list_elem_of_fmap. exists (from, to, symbol).
  split; [reflexivity|]. apply elem_of_targets_of. rewrite Htargets. left.
Qed.

Lemma targets_of_unique (ts : list (string * string * string))
  (from symbol to : string) :
  NoDup (from_symbol <$> ts) → (from, to, symbol) ∈ ts →
  targets_of ts from symbol = [to].
Proof.
  induction ts as [|x ts IH]; intros Hnodup Hin; [inversion Hin|].
  rewrite fmap_cons in Hnodup. apply NoDup_cons in Hnodup as [Hx Hnodup].
  change (targets_of (x :: ts) from symbol)
    with (match (if decide (from_symbol x = (from, symbol))
                 then Some x.1.2 else None) with
          | Some to => to :: targets_of ts from symbol
          | None => targets_of ts from symbol
          end).
  apply elem_of_cons in Hin as [<-|Hin].
  - unfold from_symbol at 1. simpl. rewrite decide_True by reflexivity.
    rewrite targets_of_fresh by exact Hx. reflexivity.
  - destruct (decide (from_symbol x = (from, symbol))) as [Hkey|_]; [|auto].
    exfalso. apply Hx. rewrite Hkey. apply list_elem_of_fmap.
    exists (from, to, symbol). auto.
Qed.

(** The own entry of a DFA table, read off the tuples it was built from. *)
Lemma dfa_table_of_targets (table : gmap string (gmap string string))
  (ts : list (string * string * string)) (from symbol : string) :
  dfa_table_of table ts → NoDup (from_symbol <$> ts) →
  targets_of ts from symbol
  = match lookup2 table from symbol with Some to => [to] | None => [] end.
Proof.
  intros Htable Hnodup.
  destruct (lookup2 table from symbol) as [to|] eqn:Hrow.
  - apply Htable in Hrow. apply (targets_of_unique _ _ _ _ Hnodup Hrow).
  - apply targets_of_fresh. intros Hkey.
    apply (dfa_table_of_key _ _ _ _ Htable) in Hkey as [to Hto]. congruence.
Qed.

(** X15: for a spec in which no state and no symbol is named like a property
    of [Object.prototype] and whose transitions are the tuples [ts], a DFA
    reached from it, in state [s] and given the symbol [a] of its alphabet,
    returns normally; the spec declares at most one target for ([s], [a]);
    with a declared target the DFA moves to it, and with none it enters the
    error state. *)
Theorem dfa_transition_by_spec (dfa : Spec.t)
  (ts : list (string * string * string)) (this : DFA.t) (s a : string) :
  plain_spec dfa →
  DFA.reachable (Some dfa) this →
  Spec.transitions dfa = Some (triple <$> ts) →
  DFA.isErrorState this = false →
  DFA.getCurrentState this = Name s →
  a ∈ DFA.alphabet this →
  (List.length (targets_of ts s a) ≤ 1)%nat
  ∧ DFA.transition (JString a) this
    = (Ok tt,
       match targets_of ts s a with
       | to :: _ => DFA.set_currentState (Name to) this
       | [] =>
           DFA.set_isInErrorState true (DFA.set_currentState ErrorState this)
       end).
Proof.
  intros Hplain Hreach Hts Herr Hcur Ha.
  destruct (dfa_reachable_table _ _ Hplain Hreach) as (ts' & Hts' & Hnd & Htable).
  rewrite Hts in Hts'. apply same_tuples in Hts' as <-.
  destruct (dfa_reachable_closed _ _ Hplain Hreach) as (_ & Hps & Hpa).
  assert (Hs : s ∈ DFA.states this).
  { destruct (dfa_reachable_runtime _ _ Hplain Hreach)
      as [(_ & s' & Hcur' & Hs')|[Hflag _]].
    - unfold DFA.getCurrentState in Hcur. congruence.
    - unfold DFA.isErrorState in Herr. congruence. }
  rewrite (dfa_transition_plain this s a Herr Hcur Ha (Hps _ Hs) (Hpa _ Ha)).
  rewrite (dfa_table_of_targets _ _ s a Htable Hnd).
  destruct (lookup2 _ s a); simpl; split; first [lia | reflexivity].
Qed.

(** X16: for a spec in which no state and no symbol is named like a property
    of [Object.prototype] and whose transitions are the tuples [ts], an NFA
    reached from it, given a symbol [a] of its alphabet, returns normally;
    the new active collection is the concatenation, over the active states
    in order, of the targets the spec declares for (state, a) in declaration
    order; it is as long as the number of these declarations, counted once
    per occurrence of an active state. *)
Theorem nfa_transition_by_spec (nfa : Spec.t)
  (ts : list (string * string * string)) (this : NFA.t) (a : string) :
  plain_spec nfa →
  NFA.reachable (Some nfa) this →
  Spec.transitions nfa = Some (triple <$> ts) →
  a ∈ NFA.alphabet this →
  (NFA.transition (JString a) this).1 = Ok tt
  ∧ NFA.getCurrentStates (NFA.transition (JString a) this).2
    = (NFA.getCurrentStates this ≫= λ x, Name <$> declared_successors ts a x)
  ∧ List.length (NFA.getCurrentStates (NFA.transition (JString a) this).2)
    = sum_list ((λ x, List.length (declared_successors ts a x))
                  <$> NFA.getCurrentStates this).
Proof.
  intros [Hps Hpa] Hreach Hts Ha.
  destruct (nfa_reachable_table _ _ Hreach) as (ts' & Hts' & Htable).
  rewrite Hts in Hts'. apply same_tuples in Hts' as <-.
  pose proof (nfa_reachable_runtime _ _ Hreach) as Hcur.
  destruct (nfa_reachable_static _ _ Hreach) as (this0 & Hnew & Hstatic).
  pose proof (nfa_constructor_plain_states _ _ Hps Hnew) as Hplain_s.
  pose proof (nfa_constructor_plain_alphabet _ _ Hpa Hnew) as Hplain_a.
  unfold nfa_static in Hstatic. injection Hstatic as Ea Es _ _ _.
  rewrite <- Es in Hplain_s. rewrite <- Ea in Hplain_a.
  assert (Hsame : (NFA.currentStates this
                     ≫= λ x, Name <$> successors this (JString a) x)
                  = (NFA.currentStates this
                       ≫= λ x, Name <$> declared_successors ts a x)).
  { revert Hcur. generalize (NFA.currentStates this). intros l Hl.
    induction l as [|x l IH]; [reflexivity|].
    rewrite !bind_cons, IH by (intros y Hy; apply Hl; right; exact Hy).
    destruct (Hl x) as (s & -> & _); [left|].
    rewrite (successors_Name _ ts) by exact Htable. reflexivity. }
  assert (Hstep : (NFA.transition (JString a) this).1 = Ok tt
                  ∧ NFA.getCurrentStates (NFA.transition (JString a) this).2
                    = (NFA.getCurrentStates this
                         ≫= λ x, Name <$> declared_successors ts a x)).
  { unfold NFA.getCurrentStates.
    destruct (decide (NFA.currentStates this = [])) as [Hnil|Hne].
    - unfold NFA.transition, NFA.isErrorState. simpl.
      rewrite (bool_decide_eq_true_2 _ Ha), Hnil. simpl. auto.
    - rewrite nfa_transition_alive.
      + simpl. split; [reflexivity | exact Hsame].
      + exact Hne.
      + simpl. apply bool_decide_eq_true_2, Ha.
      + apply Forall_forall. intros x Hx.
        destruct (Hcur _ Hx) as (s & -> & Hs). exists s. auto.
      + apply Hplain_a, Ha. }
  destruct Hstep as [Hok Hstep]. split; [exact Hok|]. split; [exact Hstep|].
  rewrite Hstep. generalize (NFA.getCurrentStates this). intros l.
  induction l as [|x l IH]; [reflexivity|].
  rewrite bind_cons, length_app, length_fmap, IH. reflexivity.
Qed.

(** ** The DFA and the NFA of one spec *)

Lemma tables_side_by_side (dt : gmap string (gmap string string))
  (nt : gmap string (gmap string (list string)))
  (ts : list (string * string * string)) :
  dfa_table_of dt ts → nfa_table_of nt ts → NoDup (from_symbol <$> ts) →
  ∀ from symbol,
    lookup2 nt from symbol = (λ to, [to]) <$> lookup2 dt from symbol.
Proof.
  intros Hdt Hnt Hnodup from symbol.
  rewrite (Hnt from symbol), (dfa_table_of_targets _ _ from symbol Hdt Hnodup).
  destruct (lookup2 dt from symbol); reflexivity.
Qed.

Lemma side_by_side_new (dfa : Spec.t) (d : DFA.t) :
  plain_spec dfa →
  DFA.constructor (Some dfa) = Ok d →
  ∃ n, NFA.constructor (Some dfa) = Ok n ∧ side_by_side d n.
Proof.
  intros Hplain Hnew.
  destruct (dfa_constructor_plain _ _ Hplain Hnew) as [Hps Hpa].
  destruct (dfa_constructor_table _ _ Hplain Hnew)
    as (ts & Hts & Hdecl & Hnodup & Hdt).
  pose proof (nfa_build_accepts _ _ ts [] ∅ Hps Hpa nfa_table_of_empty Hdecl)
    as (nt & Hbuild & Hnt).
  pose proof Hnew as Hprops. unfold DFA.constructor in Hprops.
  apply bind_Ok in Hprops as ([] & Hprops & _).
  apply dfa_constructor_Ok in Hnew
    as (dfa' & [= <-] & HA & HS & HI & HF & _ & Hcur & Hflag).
  unfold NFA.constructor. rewrite Hprops. simpl.
  rewrite HA, HS. simpl. rewrite HI, HF. simpl.
  unfold validateTransitionsNFA. rewrite Hts. simpl. rewrite Hbuild. simpl.
  eexists. split; [reflexivity|].
  unfold side_by_side, active_of, DFA.isErrorState, DFA.getCurrentState. simpl.
  rewrite Hflag, Hcur.
  split; [reflexivity|]. split; [reflexivity|]. split; [|eauto].
  apply (tables_side_by_side _ nt ts); assumption.
Qed.

Lemma side_by_side_step (dfa : Spec.t) (d : DFA.t) (n : NFA.t) (input : jsval) :
  plain_spec dfa → DFA.reachable (Some dfa) d →
  side_by_side d n →
  (NFA.transition input n).1 = (DFA.transition input d).1
  ∧ side_by_side (DFA.transition input d).2 (NFA.transition input n).2.
Proof.
  intros Hplain Hreach (Halpha & Hfinal & Htable & Hcur & Hname).
  destruct (dfa_reachable_closed _ _ Hplain Hreach) as ((_ & _ & Hclosed) & Hps & Hpa).
  unfold active_of, DFA.isErrorState, DFA.getCurrentState in Hcur.
  destruct (has (DFA.alphabet d) input) eqn:Hin.
  - destruct (DFA.isInErrorState d) eqn:Hflag.
    + unfold NFA.transition, DFA.transition, NFA.isErrorState, DFA.isErrorState.
      rewrite Halpha, Hin, Hflag, Hcur. simpl. split; [reflexivity|].
      unfold side_by_side, active_of, DFA.isErrorState. rewrite Hflag. auto.
    + destruct (dfa_reachable_runtime _ _ Hplain Hreach)
        as [(_ & s & Hs & Hsin)|[Hf _]]; [|congruence].
      rewrite Hs in Hcur.
      destruct (proj1 (has_true _ _) Hin) as (a & -> & Ha).
      rewrite (dfa_transition_plain d s a Hflag Hs Ha (Hps _ Hsin) (Hpa _ Ha)).
      rewrite nfa_transition_alive.
      * rewrite Hcur. simpl. unfold successors. simpl. rewrite Htable.
        destruct (lookup2 (DFA.transitions d) s a) as [to|] eqn:Hto;
          simpl; (split; [reflexivity|]);
          unfold side_by_side, active_of, DFA.isErrorState; simpl.
        -- rewrite Hflag. repeat split; eauto.
        -- repeat split; auto. discriminate.
      * rewrite Hcur. discriminate.
      * rewrite Halpha. exact Hin.
      * rewrite Hcur. repeat constructor. exists s. split; [reflexivity|].
        apply Hps, Hsin.
      * apply Hpa, Ha.
  - unfold NFA.transition, DFA.transition. rewrite Halpha, Hin. simpl.
    split; [reflexivity|].
    unfold side_by_side, active_of, DFA.isErrorState, DFA.getCurrentState. auto.
Qed.

Lemma dfa_run_reachable (arg : option Spec.t) (inputs : list jsval) (d : DFA.t) :
  DFA.reachable arg d → DFA.reachable arg (DFA.run inputs d).2.
Proof.
  revert d. induction inputs as [|input rest IH]; intros d Hd; [exact Hd|].
  simpl. pose proof (DFA.reachable_transition _ _ input Hd) as Hstep.
  destruct (DFA.transition input d) as [[[]|e|] d']; simpl in *; auto.
Qed.

Lemma side_by_side_run (dfa : Spec.t) (inputs : list jsval) (d : DFA.t)
  (n : NFA.t) :
  plain_spec dfa → DFA.reachable (Some dfa) d →
  side_by_side d n →
  (NFA.run inputs n).1 = (DFA.run inputs d).1
  ∧ side_by_side (DFA.run inputs d).2 (NFA.run inputs n).2.
Proof.
  intros Hplain. revert d n.
  induction inputs as [|input rest IH]; intros d n Hreach Hdn; simpl.
  - auto.
  - destruct (side_by_side_step dfa d n input Hplain Hreach Hdn) as [Hfst Hsnd].
    pose proof (DFA.reachable_transition _ _ input Hreach) as Hstep.
    destruct (NFA.transition input n) as [cn n'].
    destruct (DFA.transition input d) as [cd d']. simpl in *. subst cd.
    destruct cn as [[]|e|]; [apply IH; assumption | auto..].
Qed.

(** X17: a spec in which no state and no symbol is named like a property of
    [Object.prototype] and that the DFA constructor accepts is accepted by
    the NFA constructor too, and the two instances stay in step: fed the
    same symbols, both return or both throw the same error, and afterwards
    the NFA's active collection is the DFA's one current state, or is empty
    when the DFA is in the error state. *)
Theorem nfa_follows_dfa (dfa : Spec.t) (d : DFA.t) :
  plain_spec dfa →
  DFA.constructor (Some dfa) = Ok d →
  ∃ n, NFA.constructor (Some dfa) = Ok n
    ∧ ∀ inputs,
        (NFA.run inputs n).1 = (DFA.run inputs d).1
        ∧ NFA.getCurrentStates (NFA.run inputs n).2
          = active_of (DFA.run inputs d).2.
Proof.
  intros Hplain Hnew.
  destruct (side_by_side_new _ _ Hplain Hnew) as (n & Hn & Hdn).
  exists n. split; [exact Hn|]. intros inputs.
  destruct (side_by_side_run dfa inputs d n Hplain (DFA.reachable_new _ _ Hnew) Hdn)
    as (Hfst & _ & _ & _ & Hcur & _).
  auto.
Qed.

(** X18: for a spec in which no state and no symbol is named like a property
    of [Object.prototype] and that the DFA constructor accepts, after the
    same symbols the NFA and the DFA agree on [isErrorState()], and on
    [isAcceptingState()] as long as the DFA is not in the error state; in
    the error state the DFA answers false and the NFA true. *)
Theorem nfa_queries_follow_dfa (dfa : Spec.t) (d : DFA.t) :
  plain_spec dfa →
  DFA.constructor (Some dfa) = Ok d →
  ∃ n, NFA.constructor (Some dfa) = Ok n
    ∧ ∀ inputs,
        NFA.isErrorState (NFA.run inputs n).2
        = DFA.isErrorState (DFA.run inputs d).2
        ∧ NFA.isAcceptingState (NFA.run inputs n).2
          = DFA.isAcceptingState (DFA.run inputs d).2
            || DFA.isErrorState (DFA.run inputs d).2
        ∧ (DFA.isErrorState (DFA.run inputs d).2 = true →
           DFA.isAcceptingState (DFA.run inputs d).2 = false).
Proof.
  intros Hplain Hnew.
  destruct (side_by_side_new _ _ Hplain Hnew) as (n & Hn & Hdn).
  exists n. split; [exact Hn|]. intros inputs.
  destruct (side_by_side_run dfa inputs d n Hplain (DFA.reachable_new _ _ Hnew) Hdn)
    as (_ & _ & Hfinal & _ & Hcur & _).
  pose proof (dfa_run_reachable _ inputs d (DFA.reachable_new _ _ Hnew)) as Hreach.
  apply dfa_reachable_flag in Hreach.
  unfold NFA.isErrorState, NFA.isAcceptingState, DFA.isAcceptingState.
  rewrite Hcur, Hfinal. unfold active_of, DFA.isErrorState, DFA.getCurrentState.
  destruct (DFA.isInErrorState (DFA.run inputs d).2) eqn:Hflag; simpl.
  - destruct Hreach as [Hreach _]. rewrite Hreach by reflexivity. auto.
  - rewrite orb_false_r. split; [reflexivity|]. split; [reflexivity|discriminate].
Qed.

Lemma builders_same_errors (states alphabet : gset string) (l : list (list jsval))
  (accD : gmap string (gmap string string))
  (accN : gmap string (gmap string (list string))) (e : error) :
  plain states → plain alphabet →
  forEach (stepTransitionDFA states alphabet) l accD = Throw e →
  (∃ x0 x1 x2, e = ENonDeterministic x0 x1 x2)
  ∨ forEach (stepTransitionNFA states alphabet) l accN = Throw e.
Proof.
  intros Hps Hpa.
  revert accD accN. induction l as [|x l IH]; intros accD accN Hrun;
    [discriminate|]. cbn [forEach] in *.
  destruct (checkTransition states alphabet x) as [y|e'|] eqn:Hchk.
  - apply checkTransition_Ok in Hchk as [-> Hy].
    destruct (declared_plain _ _ _ Hps Hpa Hy) as [H0 H2].
    rewrite (stepTransitionDFA_plain _ _ _ _ Hy H0 H2) in Hrun.
    rewrite (stepTransitionNFA_plain _ _ _ _ Hy H0 H2).
    destruct (lookup2 accD y.1.1 y.2); simpl in *.
    + injection Hrun as <-. left. eauto.
    + eapply IH, Hrun.
  - unfold stepTransitionDFA in Hrun. unfold stepTransitionNFA.
    rewrite Hchk in *. simpl in *. injection Hrun as <-. right. reflexivity.
  - unfold stepTransitionDFA in Hrun. rewrite Hchk in Hrun. discriminate.
Qed.

Lemma dfa_build_cases (states alphabet : gset string)
  (ts : list (string * string * string))
  (acc : gmap string (gmap string string)) :
  plain states → plain alphabet →
  Forall (declared states alphabet) ts →
  (∃ table,
     forEach (stepTransitionDFA states alphabet) (triple <$> ts) acc = Ok table)
  ∨ ∃ x0 x1 x2,
      forEach (stepTransitionDFA states alphabet) (triple <$> ts) acc
      = Throw (ENonDeterministic x0 x1 x2).
Proof.
  intros Hps Hpa Hts. revert acc.
  induction Hts as [|y ts Hy _ IH]; intros acc.
  - left. exists acc. reflexivity.
  - rewrite fmap_cons. cbn [forEach].
    destruct (declared_plain _ _ _ Hps Hpa Hy) as [H0 H2].
    rewrite (stepTransitionDFA_plain _ _ _ _ Hy H0 H2).
    destruct (lookup2 acc y.1.1 y.2); simpl.
    + right. eauto.
    + apply IH.
Qed.

(** X11: for a spec in which no state and no symbol is named like a property
    of [Object.prototype], whatever makes the DFA constructor throw, other
    than two transitions with the same (from, symbol), makes the NFA
    constructor throw the same error; and such a spec that the NFA
    constructor accepts is either accepted by the DFA constructor or refused
    by it as non-deterministic. *)
Theorem dfa_constructor_errors_shared (dfa : Spec.t) :
  plain_spec dfa →
  (∀ e, DFA.constructor (Some dfa) = Throw e →
        (∃ x0 x1 x2, e = ENonDeterministic x0 x1 x2)
        ∨ NFA.constructor (Some dfa) = Throw e)
  ∧ (∀ n, NFA.constructor (Some dfa) = Ok n →
          (∃ d, DFA.constructor (Some dfa) = Ok d)
          ∨ ∃ x0 x1 x2,
              DFA.constructor (Some dfa)
              = Throw (ENonDeterministic x0 x1 x2)).
Proof.
  intros [Hps Hpa]. split.
  - unfold DFA.constructor, NFA.constructor. intros e Hnew.
    destruct (validateDFAProperties (Some dfa)) as [[]|e'|];
      [|injection Hnew as <-; right; reflexivity|discriminate].
    simpl in Hnew |- *.
    destruct (validateAlphabet dfa) as [alphabet|e'|] eqn:HA;
      [|injection Hnew as <-; right; reflexivity|discriminate].
    destruct (validateStates dfa) as [states|e'|] eqn:HS;
      [|injection Hnew as <-; right; reflexivity|discriminate].
    simpl in Hnew |- *.
    destruct (validateInitialState dfa states) as [initialState|e'|];
      [|injection Hnew as <-; right; reflexivity|discriminate].
    destruct (validateFinalStates dfa states) as [finalStates|e'|];
      [|injection Hnew as <-; right; reflexivity|discriminate].
    simpl in Hnew |- *.
    unfold validateTransitionsDFA in Hnew. unfold validateTransitionsNFA.
    destruct (Spec.transitions dfa) as [l|];
      [|injection Hnew as <-; right; reflexivity]. simpl in Hnew |- *.
    destruct (forEach (stepTransitionDFA states alphabet) l ∅) as [dt|e'|]
      eqn:Hdt; [discriminate| |discriminate].
    simpl in Hnew. injection Hnew as <-.
    destruct (builders_same_errors _ _ _ _ ∅ _
                (validateStates_plain _ _ Hps HS)
                (validateAlphabet_plain _ _ Hpa HA) Hdt) as [Hnd|Hnt].
    + left. exact Hnd.
    + right. rewrite Hnt. reflexivity.
  - intros n Hn.
    pose proof (nfa_constructor_plain_states _ _ Hps Hn) as Hplain_s.
    pose proof (nfa_constructor_plain_alphabet _ _ Hpa Hn) as Hplain_a.
    pose proof Hn as Hprops. unfold NFA.constructor in Hprops.
    apply bind_Ok in Hprops as ([] & Hprops & _).
    apply nfa_constructor_Ok in Hn
      as (dfa' & [= <-] & HA & HS & HI & HF & HT & _).
    unfold validateTransitionsNFA in HT.
    apply bind_Ok in HT as (l & Hl & HT).
    apply (nfa_build_Ok _ _ _ []) in HT as (ts & -> & Hdecl & _);
      [|exact nfa_table_of_empty].
    unfold DFA.constructor. rewrite Hprops. simpl.
    rewrite HA, HS. simpl. rewrite HI, HF. simpl.
    unfold validateTransitionsDFA. rewrite Hl. simpl.
    destruct (dfa_build_cases _ _ ts ∅ Hplain_s Hplain_a Hdecl)
      as [[table ->]|(x0 & x1 & x2 & ->)]; simpl.
    + left. eexists. reflexivity.
    + right. exists x0, x1, x2. reflexivity.
Qed.

(** ** Which specs are valid *)

Lemma validators_names (dfa : Spec.t) (A S F : gset string) (i : string) :
  validateAlphabet dfa = Ok A → validateStates dfa = Ok S →
  validateInitialState dfa S = Ok i → validateFinalStates dfa S = Ok F →
  ∃ alphabet states finals,
    A = list_to_set alphabet ∧ S = list_to_set states
    ∧ Spec.alphabet dfa = Some (JString <$> alphabet)
    ∧ NoDup alphabet ∧ Forall (λ s, trims_to_empty s = false) alphabet
    ∧ Spec.states dfa = Some (JString <$> states)
    ∧ NoDup states ∧ Forall (λ s, trims_to_empty s = false) states
    ∧ Spec.initialState dfa = JString i ∧ i ∈ states
    ∧ Spec.finalStates dfa = Some (JString <$> finals)
    ∧ NoDup finals ∧ Forall (λ s, s ∈ states) finals.
Proof.
  unfold validateAlphabet, validateStates, validateFinalStates.
  intros HA HS Hi HF.
  destruct (Spec.alphabet dfa) as [la|]; [|discriminate].
  destruct (Spec.states dfa) as [ls|]; [|discriminate].
  destruct (Spec.finalStates dfa) as [lf|]; [|discriminate]. simpl in *.
  change (forEach (add_name EAlphabetNotString EAlphabetDuplicate
                     trims_to_empty (λ _, EAlphabetWhitespace)) la ∅ = Ok A) in HA.
  change (forEach (add_name EStatesNotString EStatesDuplicate
                     trims_to_empty (λ _, EStatesWhitespace)) ls ∅ = Ok S) in HS.
  change (forEach (add_name EFinalStatesNotString EFinalStatesDuplicate
                     (λ s, negb (bool_decide (s ∈ S)))
                     EFinalStatesUndefinedState) lf ∅ = Ok F) in HF.
  apply forEach_add_name_empty in HA as (alphabet & -> & HA1 & HA2 & ->).
  apply forEach_add_name_empty in HS as (states & -> & HS1 & HS2 & ->).
  apply forEach_add_name_empty in HF as (finals & -> & HF1 & HF2 & _).
  apply validateInitialState_Ok in Hi as [Hi1 Hi2].
  exists alphabet, states, finals.
  repeat (split; [first [reflexivity | assumption]|]).
  split; [apply elem_of_list_to_set in Hi2; exact Hi2|].
  repeat (split; [first [reflexivity | assumption]|]).
  eapply Forall_impl; [exact HF2|]. intros s Hs. simpl in Hs.
  apply negb_false_iff, bool_decide_eq_true, elem_of_list_to_set in Hs. exact Hs.
Qed.

Lemma names_validators (dfa : Spec.t) (alphabet states finals : list string)
  (init : string) (ts : list (string * string * string)) :
  valid_spec dfa alphabet states finals init ts →
  validateDFAProperties (Some dfa) = Ok tt
  ∧ validateAlphabet dfa = Ok (list_to_set alphabet)
  ∧ validateStates dfa = Ok (list_to_set states)
  ∧ validateInitialState dfa (list_to_set states) = Ok init
  ∧ validateFinalStates dfa (list_to_set states) = Ok (list_to_set finals).
Proof.
  intros (HA & HA1 & HA2 & HS & HS1 & HS2 & Hi & Hi1 & HF & HF1 & HF2 & HT & _).
  assert (Hblank : trims_to_empty init = false).
  { rewrite Forall_forall in HS2. apply HS2, Hi1. }
  unfold validateDFAProperties, validateAlphabet, validateStates,
    validateInitialState, validateFinalStates.
  rewrite HA, HS, Hi, HF, HT. simpl.
  split; [destruct init; [discriminate Hblank | reflexivity]|].
  split; [|split; [|split]].
  - change (forEach (add_name EAlphabetNotString EAlphabetDuplicate
                       trims_to_empty (λ _, EAlphabetWhitespace))
              (JString <$> alphabet) ∅ = Ok (list_to_set alphabet)).
    apply forEach_add_name_empty. exists alphabet. auto.
  - change (forEach (add_name EStatesNotString EStatesDuplicate
                       trims_to_empty (λ _, EStatesWhitespace))
              (JString <$> states) ∅ = Ok (list_to_set states)).
    apply forEach_add_name_empty. exists states. auto.
  - rewrite bool_decide_eq_true_2 by (apply elem_of_list_to_set, Hi1).
    simpl. rewrite Hblank. reflexivity.
  - change (forEach (add_name EFinalStatesNotString EFinalStatesDuplicate
                       (λ s, negb (bool_decide (s ∈ (list_to_set states : gset string))))
                       EFinalStatesUndefinedState)
              (JString <$> finals) ∅ = Ok (list_to_set finals)).
    apply forEach_add_name_empty. exists finals.
    split; [reflexivity|]. split; [exact HF1|]. split; [|reflexivity].
    eapply Forall_impl; [exact HF2|]. intros s Hs. simpl.
    apply negb_false_iff, bool_decide_eq_true, elem_of_list_to_set, Hs.
Qed.

(** X9: for a spec in which no state and no symbol is named like a property
    of [Object.prototype], [new NFA(nfa)] returns an instance exactly when
    the spec is made of pairwise distinct non-blank symbols, pairwise
    distinct non-blank states, an initial state and pairwise distinct final
    states among the states, and transitions that are triples of declared
    states and symbols.  Final states and transitions may be empty. *)
Theorem nfa_constructor_Ok_iff (nfa : Spec.t) :
  plain_spec nfa →
  (∃ this, NFA.constructor (Some nfa) = Ok this)
  ↔ ∃ alphabet states finals init ts,
      valid_spec nfa alphabet states finals init ts.
Proof.
  intros [Hps Hpa]. split.
  - intros [this Hnew].
    apply nfa_constructor_Ok in Hnew as (nfa' & [= <-] & HA & HS & Hi & HF & HT & _).
    destruct (validators_names _ _ _ _ _ HA HS Hi HF)
      as (alphabet & states & finals & EA & ES & H).
    unfold validateTransitionsNFA in HT.
    destruct (Spec.transitions nfa) as [l|] eqn:Hl; [|discriminate].
    simpl in HT.
    pose proof (nfa_build_Ok _ _ l [] ∅ _ HT nfa_table_of_empty)
      as (ts & -> & Hdecl & _).
    rewrite ES, EA in Hdecl.
    exists alphabet, states, finals, (NFA.initialState this), ts.
    unfold valid_spec. tauto.
  - intros (alphabet & states & finals & init & ts & Hvalid).
    destruct (names_validators _ _ _ _ _ _ Hvalid) as (HP & HA & HS & Hi & HF).
    destruct Hvalid as (_ & _ & _ & _ & _ & _ & _ & _ & _ & _ & _ & HT & Hdecl).
    pose proof (nfa_build_accepts _ _ ts [] ∅
                  (validateStates_plain _ _ Hps HS)
                  (validateAlphabet_plain _ _ Hpa HA)
                  nfa_table_of_empty Hdecl)
      as (table & Hrun & _).
    unfold NFA.constructor. rewrite HP. simpl. rewrite HA. simpl.
    rewrite HS. simpl. rewrite Hi. simpl. rewrite HF. simpl.
    unfold validateTransitionsNFA. rewrite HT. simpl. rewrite Hrun. simpl.
    eauto.
Qed.

(** X10: for a spec in which no state and no symbol is named like a property
    of [Object.prototype], [new DFA(dfa)] returns an instance exactly when
    the spec is valid for the NFA and, in addition, no two of its
    transitions have the same (from, symbol). *)
Theorem dfa_constructor_Ok_iff (dfa : Spec.t) :
  plain_spec dfa →
  (∃ this, DFA.constructor (Some dfa) = Ok this)
  ↔ ∃ alphabet states finals init ts,
      valid_spec dfa alphabet states finals init ts
      ∧ NoDup (from_symbol <$> ts).
Proof.
  intros [Hps Hpa]. split.
  - intros [this Hnew].
    apply dfa_constructor_Ok in Hnew as (dfa' & [= <-] & HA & HS & Hi & HF & HT & _).
    destruct (validators_names _ _ _ _ _ HA HS Hi HF)
      as (alphabet & states & finals & EA & ES & H).
    unfold validateTransitionsDFA in HT.
    destruct (Spec.transitions dfa) as [l|] eqn:Hl; [|discriminate].
    simpl in HT.
    pose proof (dfa_build_Ok _ _ l [] ∅ _
                  (validateStates_plain _ _ Hps HS)
                  (validateAlphabet_plain _ _ Hpa HA)
                  HT dfa_table_of_empty (NoDup_nil_2 (A := string * string)))
      as (ts & -> & Hdecl & Hnodup & _).
    rewrite ES, EA in Hdecl.
    exists alphabet, states, finals, (DFA.initialState this), ts.
    split; [|exact Hnodup].
    unfold valid_spec. tauto.
  - intros (alphabet & states & finals & init & ts & Hvalid & Hnodup).
    destruct (names_validators _ _ _ _ _ _ Hvalid) as (HP & HA & HS & Hi & HF).
    destruct Hvalid as (_ & _ & _ & _ & _ & _ & _ & _ & _ & _ & _ & HT & Hdecl).
    pose proof (dfa_build_accepts _ _ ts [] ∅
                  (validateStates_plain _ _ Hps HS)
                  (validateAlphabet_plain _ _ Hpa HA)
                  dfa_table_of_empty Hdecl Hnodup)
      as (table & Hrun & _).
    unfold DFA.constructor. rewrite HP. simpl. rewrite HA. simpl.
    rewrite HS. simpl. rewrite Hi. simpl. rewrite HF. simpl.
    unfold validateTransitionsDFA. rewrite HT. simpl. rewrite Hrun. simpl.
    eauto.
Qed.

(** ** Specs with plain names stay within the model *)

Lemma bind_not_Beyond {A B : Type} (m : completion A) (k : A → completion B) :
  m ≠ Beyond → (∀ a, k a ≠ Beyond) → m ≫= k ≠ Beyond.
Proof. destruct m as [a|e|]; simpl; [auto|discriminate|congruence]. Qed.

Lemma forEach_not_Beyond {A S : Type} (f : A → S → completion S) (l : list A)
  (acc : S) :
  (∀ x acc, f x acc ≠ Beyond) → forEach f l acc ≠ Beyond.
Proof.
  intros Hf. revert acc. induction l as [|x l IH]; intros acc; [discriminate|].
  cbn [forEach]. apply bind_not_Beyond; [apply Hf | exact IH].
Qed.

Lemma forEach_i_not_Beyond {A : Type} (f : A → nat → completion unit)
  (l : list A) (i : nat) :
  (∀ y i, f y i ≠ Beyond) → forEach_i f l i ≠ Beyond.
Proof.
  intros Hf. revert i. induction l as [|y l IH]; intros i; [discriminate|].
  cbn [forEach_i]. apply bind_not_Beyond; [apply Hf | intros _; apply IH].
Qed.

Lemma add_name_not_Beyond (not_string : jsval → error) (duplicate : string → error)
  (bad : string → bool) (refused : string → error) (x : jsval)
  (acc : gset string) :
  add_name not_string duplicate bad refused x acc ≠ Beyond.
Proof.
  unfold add_name. destruct x; try discriminate.
  destruct (bool_decide _); [discriminate|]. destruct (bad _); discriminate.
Qed.

Lemma validateAlphabet_not_Beyond (dfa : Spec.t) : validateAlphabet dfa ≠ Beyond.
Proof.
  unfold validateAlphabet. destruct (Spec.alphabet dfa) as [l|]; [|discriminate].
  simpl.
  change (forEach (add_name EAlphabetNotString EAlphabetDuplicate
                     trims_to_empty (λ _, EAlphabetWhitespace)) l ∅ ≠ Beyond).
  apply forEach_not_Beyond, add_name_not_Beyond.
Qed.

Lemma validateStates_not_Beyond (dfa : Spec.t) : validateStates dfa ≠ Beyond.
Proof.
  unfold validateStates. destruct (Spec.states dfa) as [l|]; [|discriminate].
  simpl.
  change (forEach (add_name EStatesNotString EStatesDuplicate
                     trims_to_empty (λ _, EStatesWhitespace)) l ∅ ≠ Beyond).
  apply forEach_not_Beyond, add_name_not_Beyond.
Qed.

Lemma validateInitialState_not_Beyond (dfa : Spec.t) (states : gset string) :
  validateInitialState dfa states ≠ Beyond.
Proof.
  unfold validateInitialState. destruct (Spec.initialState dfa); try discriminate.
  destruct (negb _); [discriminate|]. destruct (trims_to_empty _); discriminate.
Qed.

Lemma validateFinalStates_not_Beyond (dfa : Spec.t) (states : gset string) :
  validateFinalStates dfa states ≠ Beyond.
Proof.
  unfold validateFinalStates.
  destruct (Spec.finalStates dfa) as [l|]; [|discriminate]. simpl.
  change (forEach (add_name EFinalStatesNotString EFinalStatesDuplicate
                     (λ s, negb (bool_decide (s ∈ states)))
                     EFinalStatesUndefinedState) l ∅ ≠ Beyond).
  apply forEach_not_Beyond, add_name_not_Beyond.
Qed.

Lemma checkTransition_not_Beyond (states alphabet : gset string) (x : list jsval) :
  checkTransition states alphabet x ≠ Beyond.
Proof.
  unfold checkTransition. destruct (negb _); [discriminate|].
  apply bind_not_Beyond.
  - apply forEach_i_not_Beyond. intros [] i; discriminate.
  - intros _. destruct x as [|[] [|[] [|[] [|v x]]]]; try discriminate.
    repeat (destruct (negb _); [discriminate|]). discriminate.
Qed.

Lemma stepTransitionDFA_not_Beyond (states alphabet : gset string)
  (x : list jsval) (acc : gmap string (gmap string string)) :
  plain states → stepTransitionDFA states alphabet x acc ≠ Beyond.
Proof.
  intros Hps. unfold stepTransitionDFA.
  destruct (checkTransition states alphabet x) as [[[x0 x1] x2]|e|] eqn:Hchk;
    simpl; [|discriminate|exfalso; exact (checkTransition_not_Beyond _ _ _ Hchk)].
  apply checkTransition_Ok in Hchk as [-> [H0 _]]. simpl in H0.
  rewrite (get_plain _ _ (Hps _ H0)).
  destruct (acc !! x0) as [row|]; [|discriminate].
  destruct (get row x2); discriminate.
Qed.





(** X23: for a spec in which no state and no symbol is named like a property
    of [Object.prototype], neither [new DFA(dfa)] nor any call of
    [transition] on an instance reached from it leaves what is modelled. *)
Theorem dfa_stays_within_model (dfa : Spec.t) :
  plain_spec dfa →
  DFA.constructor (Some dfa) ≠ Beyond
  ∧ ∀ this input,
      DFA.reachable (Some dfa) this → (DFA.transition input this).1 ≠ Beyond.
Proof.
  intros Hplain. split.
  - destruct Hplain as [Hps _]. unfold DFA.constructor.
    apply bind_not_Beyond;
      [unfold validateDFAProperties;
       repeat (destruct (negb _); [discriminate|]); discriminate|].
    intros _. simpl.
    destruct (validateAlphabet dfa) as [alphabet| |] eqn:HA;
      [|discriminate|exfalso; exact (validateAlphabet_not_Beyond _ HA)].
    destruct (validateStates dfa) as [states| |] eqn:HS;
      [|discriminate|exfalso; exact (validateStates_not_Beyond _ HS)].
    simpl.
    apply bind_not_Beyond; [apply validateInitialState_not_Beyond|].
    intros initialState.
    apply bind_not_Beyond; [apply validateFinalStates_not_Beyond|].
    intros finalStates.
    apply bind_not_Beyond; [|discriminate].
    unfold validateTransitionsDFA.
    destruct (Spec.transitions dfa) as [l|]; [|discriminate]. simpl.
    apply forEach_not_Beyond. intros x acc.
    apply stepTransitionDFA_not_Beyond, (validateStates_plain _ _ Hps HS).
  - intros this input Hreach.
    destruct (dfa_reachable_closed _ _ Hplain Hreach) as (_ & Hps & Hpa).
    destruct (has (DFA.alphabet this) input) eqn:Hin;
      [|unfold DFA.transition; rewrite Hin; discriminate].
    destruct (proj1 (has_true _ _) Hin) as (a & -> & Ha).
    destruct (dfa_reachable_runtime _ _ Hplain Hreach)
      as [(Hflag & s & Hs & Hsin)|[Hflag _]].
    + rewrite (dfa_transition_plain this s a Hflag Hs Ha (Hps _ Hsin) (Hpa _ Ha)).
      discriminate.
    + unfold DFA.transition, DFA.isErrorState. rewrite Hin, Hflag. discriminate.
Qed.

(** ** The further properties at work on the scenarios *)

Lemma validateAlphabet_Ok_iff_witness :
  validateAlphabet spec_parity = Ok (list_to_set ["0"; "1"]).
Proof.
  apply (proj2 (validateAlphabet_Ok_iff spec_parity (list_to_set ["0"; "1"]))).
  exists ["0"; "1"].
  split; [reflexivity|]. split; [compute_done|]. split; [compute_done|].
  reflexivity.
Defined.

Lemma validateStates_Ok_iff_witness :
  validateStates spec_parity = Ok (list_to_set ["even"; "odd"]).
Proof.
  apply (proj2 (validateStates_Ok_iff spec_parity (list_to_set ["even"; "odd"]))).
  exists ["even"; "odd"].
  split; [reflexivity|]. split; [compute_done|]. split; [compute_done|].
  reflexivity.
Defined.

Lemma validateFinalStates_Ok_iff_witness :
  validateFinalStates spec_parity {["even"; "odd"]} = Ok (list_to_set ["even"]).
Proof.
  apply (proj2 (validateFinalStates_Ok_iff spec_parity {["even"; "odd"]}
                  (list_to_set ["even"]))).
  exists ["even"].
  split; [reflexivity|]. split; [compute_done|]. split; [compute_done|].
  reflexivity.
Defined.




Lemma validateTransitionsDFA_accepts_iff_witness :
  plain ({["even"; "odd"]} : gset string) ∧ plain ({["0"; "1"]} : gset string)
  ∧ ∃ table,
      validateTransitionsDFA spec_parity {["even"; "odd"]} {["0"; "1"]} = Ok table.
Proof.
  assert (Hps : plain ({["even"; "odd"]} : gset string)) by compute_done.
  assert (Hpa : plain ({["0"; "1"]} : gset string)) by compute_done.
  split; [exact Hps|]. split; [exact Hpa|].
  apply (proj2 (validateTransitionsDFA_accepts_iff spec_parity
                  {["even"; "odd"]} {["0"; "1"]} Hps Hpa)).
  exists parity_tuples.
  split; [reflexivity|]. split; compute_done.
Defined.

Lemma validateTransitionsNFA_Ok_iff_witness :
  (∃ table,
      validateTransitionsNFA spec_merge {["s1"; "s2"; "s3"]} {["a"; "b"]}
      = Ok table)
  ∧ ∀ from symbol targets,
      lookup2 (NFA.transitions nfa_s1) from symbol = Some targets
      ↔ targets ≠ []
        ∧ targets
          = targets_of [("s1", "s2", "a"); ("s1", "s3", "a")] from symbol.
Proof.
  assert (Hps : plain ({["s1"; "s2"; "s3"]} : gset string)) by compute_done.
  assert (Hpa : plain ({["a"; "b"]} : gset string)) by compute_done.
  split.
  - apply (proj2 (proj1 (validateTransitionsNFA_Ok_iff spec_merge
                           {["s1"; "s2"; "s3"]} {["a"; "b"]} Hps Hpa))).
    exists [("s1", "s2", "a"); ("s1", "s3", "a");
            ("s2", "s2", "a"); ("s3", "s2", "a")].
    split; [reflexivity | compute_done].
  - apply (proj2 (validateTransitionsNFA_Ok_iff spec_nfa
                    {["s1"; "s2"; "s3"]} {["a"; "b"]} Hps Hpa)
             (NFA.transitions nfa_s1)).
    + vm_compute. reflexivity.
    + reflexivity.
Defined.

Lemma dfa_builder_rejects_first_conflict_witness :
  validateTransitionsDFA spec_nfa {["s1"; "s2"; "s3"]} {["a"; "b"]}
  = Throw (ENonDeterministic "s1" "s3" "a").
Proof.
  assert (Hps : plain ({["s1"; "s2"; "s3"]} : gset string)) by compute_done.
  assert (Hpa : plain ({["a"; "b"]} : gset string)) by compute_done.
  apply (proj1 (dfa_builder_rejects_first_conflict spec_nfa
                  {["s1"; "s2"; "s3"]} {["a"; "b"]} Hps Hpa)
           [("s1", "s2", "a")] ("s1", "s3", "a") []).
  - reflexivity.
  - compute_done.
  - compute_done.
  - compute_done.
  - compute_done.
Defined.

Lemma dfa_reachable_invariant_witness :
  plain_spec spec_dfa
  ∧ DFA.reachable (Some spec_dfa) dfa_dead
  ∧ dfa_closed dfa_dead
  ∧ ((DFA.isErrorState dfa_dead = false
      ∧ ∃ s, DFA.getCurrentState dfa_dead = Name s ∧ s ∈ DFA.states dfa_dead)
     ∨ (DFA.isErrorState dfa_dead = true
        ∧ DFA.getCurrentState dfa_dead = ErrorState)).
Proof.
  assert (Hplain : plain_spec spec_dfa) by compute_done.
  assert (Hreach : DFA.reachable (Some spec_dfa) dfa_dead).
  { apply DFA.reachable_transition, DFA.reachable_new. vm_compute. reflexivity. }
  split; [exact Hplain|]. split; [exact Hreach|].
  exact (dfa_reachable_invariant spec_dfa dfa_dead Hplain Hreach).
Defined.

Lemma nfa_reachable_invariant_witness :
  plain_states spec_nfa
  ∧ NFA.reachable (Some spec_nfa) nfa_s2_s3
  ∧ nfa_closed nfa_s2_s3
  ∧ ∀ x, x ∈ NFA.getCurrentStates nfa_s2_s3 →
         ∃ s, x = Name s ∧ s ∈ NFA.states nfa_s2_s3.
Proof.
  assert (Hplain : plain_states spec_nfa) by (unfold plain_states; compute_done).
  assert (Hreach : NFA.reachable (Some spec_nfa) nfa_s2_s3).
  { apply NFA.reachable_transition, NFA.reachable_new. vm_compute. reflexivity. }
  split; [exact Hplain|]. split; [exact Hreach|].
  exact (nfa_reachable_invariant spec_nfa nfa_s2_s3 Hplain Hreach).
Defined.

Lemma dfa_transition_follows_table_witness :
  ∃ this',
    DFA.transition (JString "a") dfa_s1 = (Ok tt, this')
    ∧ DFA.isErrorState this' = false
    ∧ DFA.getCurrentState this' = Name "s2".
Proof.
  apply (dfa_transition_follows_table dfa_s1 "s1" (JString "a")).
  - reflexivity.
  - reflexivity.
  - vm_compute. reflexivity.
  - reflexivity.
  - reflexivity.
Defined.

Lemma nfa_transition_is_union_witness :
  ∃ this',
    NFA.transition (JString "a") nfa_s1 = (Ok tt, this')
    ∧ NFA.getCurrentStates this' = [Name "s2"; Name "s3"].
Proof.
  destruct (nfa_transition_is_union nfa_s1 (JString "a"))
    as (this' & Hstep & Hcur & _).
  - discriminate.
  - vm_compute. reflexivity.
  - repeat constructor. exists "s1". split; reflexivity.
  - reflexivity.
  - exists this'. split; [exact Hstep | exact Hcur].
Defined.

Lemma dfa_transition_by_spec_witness :
  DFA.transition (JString "a") dfa_s1
  = (Ok tt, DFA.set_currentState (Name "s2") dfa_s1)
  ∧ DFA.transition (JString "b") dfa_s1
    = (Ok tt,
       DFA.set_isInErrorState true (DFA.set_currentState ErrorState dfa_s1)).
Proof.
  assert (Hplain : plain_spec spec_dfa) by compute_done.
  assert (Hreach : DFA.reachable (Some spec_dfa) dfa_s1).
  { apply DFA.reachable_new. vm_compute. reflexivity. }
  split.
  - apply (dfa_transition_by_spec spec_dfa
             [("s1", "s2", "a"); ("s2", "s3", "b")] dfa_s1 "s1" "a" Hplain Hreach).
    + reflexivity.
    + reflexivity.
    + reflexivity.
    + compute_done.
  - apply (dfa_transition_by_spec spec_dfa
             [("s1", "s2", "a"); ("s2", "s3", "b")] dfa_s1 "s1" "b" Hplain Hreach).
    + reflexivity.
    + reflexivity.
    + reflexivity.
    + compute_done.
Defined.

Lemma nfa_transition_by_spec_witness :
  (NFA.transition (JString "a") (NFA.transition (JString "a") nfa_merge).2).1
  = Ok tt
  ∧ NFA.getCurrentStates
      (NFA.transition (JString "a") (NFA.transition (JString "a") nfa_merge).2).2
    = [Name "s2"; Name "s2"]
  ∧ List.length
      (NFA.getCurrentStates
         (NFA.transition (JString "a")
            (NFA.transition (JString "a") nfa_merge).2).2)
    = 2.
Proof.
  apply (nfa_transition_by_spec spec_merge
           [("s1", "s2", "a"); ("s1", "s3", "a");
            ("s2", "s2", "a"); ("s3", "s2", "a")]
           (NFA.transition (JString "a") nfa_merge).2 "a").
  - compute_done.
  - apply NFA.reachable_transition, NFA.reachable_new. vm_compute. reflexivity.
  - reflexivity.
  - compute_done.
Defined.

Lemma nfa_follows_dfa_witness :
  ∃ n, NFA.constructor (Some spec_dfa) = Ok n
    ∧ ∀ inputs,
        (NFA.run inputs n).1 = (DFA.run inputs dfa_s1).1
        ∧ NFA.getCurrentStates (NFA.run inputs n).2
          = active_of (DFA.run inputs dfa_s1).2.
Proof.
  apply (nfa_follows_dfa spec_dfa dfa_s1).
  - compute_done.
  - vm_compute. reflexivity.
Defined.

Lemma nfa_queries_follow_dfa_witness :
  ∃ n, NFA.constructor (Some spec_dfa) = Ok n
    ∧ ∀ inputs,
        NFA.isErrorState (NFA.run inputs n).2
        = DFA.isErrorState (DFA.run inputs dfa_s1).2
        ∧ NFA.isAcceptingState (NFA.run inputs n).2
          = DFA.isAcceptingState (DFA.run inputs dfa_s1).2
            || DFA.isErrorState (DFA.run inputs dfa_s1).2
        ∧ (DFA.isErrorState (DFA.run inputs dfa_s1).2 = true →
           DFA.isAcceptingState (DFA.run inputs dfa_s1).2 = false).
Proof.
  apply (nfa_queries_follow_dfa spec_dfa dfa_s1).
  - compute_done.
  - vm_compute. reflexivity.
Defined.

Lemma dfa_constructor_errors_shared_witness :
  ((∃ x0 x1 x2, ETransitionNotString 1 (JNumber 3) = ENonDeterministic x0 x1 x2)
   ∨ NFA.constructor (Some spec_number)
     = Throw (ETransitionNotString 1 (JNumber 3)))
  ∧ ((∃ d, DFA.constructor (Some spec_nfa) = Ok d)
     ∨ ∃ x0 x1 x2,
         DFA.constructor (Some spec_nfa)
         = Throw (ENonDeterministic x0 x1 x2)).
Proof.
  assert (Hnumber : plain_spec spec_number) by compute_done.
  assert (Hnfa : plain_spec spec_nfa) by compute_done.
  split.
  - apply (proj1 (dfa_constructor_errors_shared spec_number Hnumber)).
    vm_compute. reflexivity.
  - apply (proj2 (dfa_constructor_errors_shared spec_nfa Hnfa) nfa_s1).
    vm_compute. reflexivity.
Defined.

Lemma nfa_constructor_Ok_iff_witness :
  ∃ this, NFA.constructor (Some spec_merge) = Ok this.
Proof.
  assert (Hplain : plain_spec spec_merge) by compute_done.
  apply (proj2 (nfa_constructor_Ok_iff spec_merge Hplain)).
  exists ["a"; "b"], ["s1"; "s2"; "s3"], ["s3"], "s1",
    [("s1", "s2", "a"); ("s1", "s3", "a"); ("s2", "s2", "a"); ("s3", "s2", "a")].
  unfold valid_spec.
  repeat (split; [first [reflexivity | compute_done]|]). compute_done.
Defined.

Lemma dfa_constructor_Ok_iff_witness :
  ∃ this, DFA.constructor (Some spec_parity) = Ok this.
Proof.
  assert (Hplain : plain_spec spec_parity) by compute_done.
  apply (proj2 (dfa_constructor_Ok_iff spec_parity Hplain)).
  exists ["0"; "1"], ["even"; "odd"], ["even"], "even", parity_tuples.
  split; [|compute_done]. unfold valid_spec.
  repeat (split; [first [reflexivity | compute_done]|]). compute_done.
Defined.


Lemma dfa_stays_within_model_witness :
  DFA.constructor (Some spec_parity) ≠ Beyond
  ∧ ∀ this input,
      DFA.reachable (Some spec_parity) this →
      (DFA.transition input this).1 ≠ Beyond.
Proof.
  apply (dfa_stays_within_model spec_parity). compute_done.
Defined.
